(** * The Paillier benchmark client (phe/src/paillier/client.py)

    A shallow embedding of the client script: the Python 2 built-ins it
    leans on ([str], [int], [len], [in], [split]), the length-prefixed
    framing it speaks on the socket, the request generator, and the
    benchmark loop with its correctness tallies.

    The script is Python 2 ([xrange], [except socket.error, e]), so a [str]
    is a byte string; it is modelled by Rocq's [string], whose characters
    are 8-bit. Python integers are unbounded and modelled by [Z]. *)

From Stdlib Require Import ZArith Lia Ascii String Decimal DecimalString DecimalZ.
From Stdlib Require Import SpecFloat.
From stdpp Require Import base option list gmap strings.

Local Open Scope Z_scope.

(** ** Python 2 built-ins on byte strings *)

Module Py.

(** Exceptions the script can meet. [SocketError] carries [e.args[0]]. *)
Inductive exn :=
| SocketError (errno : Z)
| ValueError
| KeyError
| IndexError
| TypeError
| OverflowError.

(** [len(s)] *)
Definition len (s : string) : Z := Z.of_nat (String.length s).

Definition CR : ascii := "013"%char.
Definition LF : ascii := "010"%char.
(** ['\r\n'] *)
Definition CRLF : string := String CR (String LF "").

Fixpoint forallb (p : ascii → bool) (s : string) : bool :=
  match s with
  | "" => true
  | String c s' => p c && forallb p s'
  end.

Definition is_digit (c : ascii) : bool :=
  match Ascii.is_nat c with Some _ => true | None => false end.

(** [str(n)] for an integer: decimal digits, a leading minus sign when
    negative. *)
Definition str (n : Z) : string := NilZero.string_of_int (Z.to_int n).

Fixpoint lstrip (s : string) : string :=
  match s with
  | "" => ""
  | String c s' => if Ascii.is_space c then lstrip s' else s
  end.

Fixpoint rstrip (s : string) : string :=
  match s with
  | "" => ""
  | String c s' =>
      match rstrip s' with
      | "" => if Ascii.is_space c then "" else String c ""
      | r => String c r
      end
  end.

(** [int(s)] for a byte string, base 10: surrounding white space is
    skipped, one sign is allowed, at least one digit is required.
    [None] stands for [ValueError]. *)
Definition int (s : string) : option Z :=
  match rstrip (lstrip s) with
  | String "+" t => Z.of_uint <$> NilZero.uint_of_string t
  | t => Z.of_int <$> NilZero.int_of_string t
  end.

(** If [p] is a prefix of [s], what follows it. *)
Fixpoint strip_prefix (p s : string) : option string :=
  match p, s with
  | "", _ => Some s
  | String a p', String b s' => if Ascii.eqb a b then strip_prefix p' s' else None
  | String _ _, "" => None
  end.

(** The text before and after the first occurrence of [sep] in [s]. *)
Fixpoint partition (sep s : string) : option (string * string) :=
  match strip_prefix sep s with
  | Some after => Some ("", after)
  | None =>
      match s with
      | "" => None
      | String c s' =>
          match partition sep s' with
          | Some (before, after) => Some (String c before, after)
          | None => None
          end
      end
  end.

(** [sep in s] *)
Definition contains (sep s : string) : bool :=
  match partition sep s with Some _ => true | None => false end.

(** [s.split(sep, 1)] *)
Definition split1 (sep s : string) : list string :=
  match partition sep s with
  | Some (before, after) => [before; after]
  | None => [s]
  end.

(** [''.join(l)] *)
Definition join (l : list string) : string := foldr String.app "" l.

End Py.

(** ** The socket *)

(** What one call of [sock.recv(4096)] does: hand over some bytes (none at
    all once the peer has closed), or raise [socket.error]. *)
Inductive recv_result :=
| RecvData (chunk : string)
| RecvError (errno : Z).

(** How a step of the script ends. When the script of [recv] results is
    used up the blocking [recv] never returns: [Blocked]. *)
Inductive result (A : Type) :=
| Val (a : A)
| Raise (e : Py.exn)
| Blocked.
Arguments Val {A} a.
Arguments Raise {A} e.
Arguments Blocked {A}.

(** ** Framing *)

Module Framing.
Import Py.

(** Lines 171-173: the bytes handed to [sock.sendall] for a serialized
    [body]. *)
Definition frame (body : string) : string :=
  let body_len := len body in
  str body_len +:+ CRLF +:+ body.

(** Lines 184-189: the size the reader expects for the buffer [response]. *)
Definition expected_size (response : string) : result Z :=
  if contains CRLF response then
    match split1 CRLF response with
    | response_size_str :: _ =>
        match int response_size_str with
        | Some n => Val (len response_size_str + 2 + n)
        | None => Raise ValueError
        end
    | [] => Raise IndexError
    end
  else Val (len response + 1).

(** Lines 178-191: the buffering loop; one [recv] result is used per turn.
    Returns the buffer and the [recv] results still unused. *)
Fixpoint recv_loop (incoming : list recv_result) (response : string)
    (response_size : Z) {struct incoming} : result string * list recv_result :=
  if len response <? response_size then
    match incoming with
    | [] => (Blocked, [])
    | RecvError errno :: incoming' => (Raise (SocketError errno), incoming')
    | RecvData chunk :: incoming' =>
        let response := response +:+ chunk in
        match expected_size response with
        | Val response_size => recv_loop incoming' response response_size
        | Raise e => (Raise e, incoming')
        | Blocked => (Blocked, incoming')
        end
    end
  else (Val response, incoming).

(** Lines 175-193, up to the argument of [json.loads]. *)
Definition read_frame (incoming : list recv_result)
  : result string * list recv_result :=
  match recv_loop incoming "" 1 with
  | (Val response, rest) =>
      match split1 CRLF response !! 1%nat with
      | Some payload => (Val payload, rest)
      | None => (Raise IndexError, rest)
      end
  | (Raise e, rest) => (Raise e, rest)
  | (Blocked, rest) => (Blocked, rest)
  end.

End Framing.

(** ** Floating-point numbers *)

(** Python's [float] is IEEE 754 binary64; [spec_float] with 53 bits of
    precision describes its values and its correctly rounded arithmetic. *)
Module Float.
Import Py.

Definition prec : Z := 53.
Definition emax : Z := 1024.

Definition add : spec_float → spec_float → spec_float := SFadd prec emax.
Definition sub : spec_float → spec_float → spec_float := SFsub prec emax.
Definition mul : spec_float → spec_float → spec_float := SFmul prec emax.
(** [x != y] *)
Definition ne (x y : spec_float) : bool := negb (SFeqb x y).

(** A positive rational as numerator and denominator. *)
Definition frac (m : positive) (e : Z) : Z * Z :=
  if 0 <=? e then (Z.pos m * 2 ^ e, 1) else (Z.pos m, 2 ^ (- e)).

Definition scale10 (q : Z * Z) (p : Z) : Z * Z :=
  if 0 <=? p then (q.1 * 10 ^ p, q.2) else (q.1, q.2 * 10 ^ (- p)).

Definition round_half_even (q : Z * Z) : Z :=
  let (n, r) := Z.div_eucl q.1 q.2 in
  match 2 * r ?= q.2 with
  | Lt => n
  | Gt => n + 1
  | Eq => if Z.even n then n else n + 1
  end.

(** The largest [k' <= k] with [10 ^ (k' - 1) <= q]. *)
Fixpoint decpt_search (fuel : nat) (k : Z) (q : Z * Z) : Z :=
  match fuel with
  | O => k
  | S fuel' =>
      let s := scale10 q (1 - k) in
      if s.2 <=? s.1 then k else decpt_search fuel' (k - 1) q
  end.

Fixpoint rstrip_zeros (s : string) : string :=
  match s with
  | "" => ""
  | String c s' =>
      match rstrip_zeros s' with
      | "" => if Ascii.eqb c "0" then "" else String c ""
      | r => String c r
      end
  end.

(** The digits of [m * 2 ^ e] correctly rounded to [ndigits] significant
    decimal digits, trailing zeros removed, and the position of the decimal
    point: the value is [0.d1d2... * 10 ^ decpt]. *)
Definition dtoa (ndigits : Z) (m : positive) (e : Z) : string * Z :=
  let q := frac m e in
  let decpt := decpt_search 700 310 q in
  let n := round_half_even (scale10 q (ndigits - decpt)) in
  (rstrip_zeros (Py.str n), if n =? 10 ^ ndigits then decpt + 1 else decpt).

Fixpoint zeros (n : nat) : string :=
  match n with O => "" | S n' => String "0" (zeros n') end.

Definition exponent_str (exp : Z) : string :=
  (if exp <? 0 then "-" else "+") +:+
  (if Z.abs exp <? 10 then "0" else "") +:+ Py.str (Z.abs exp).

(** The ['g'] layout with precision 12 that [str] asks for: an exponent
    when [decpt <= -4] or [decpt > 11], and [.0] added to an integer. *)
Definition format_g12 (digits : string) (decpt : Z) : string :=
  let n := String.length digits in
  if (decpt <=? -4) || (11 <? decpt) then
    match digits with
    | String d "" => String d ""
    | String d ds => String d ("." +:+ ds)
    | "" => ""
    end +:+ "e" +:+ exponent_str (decpt - 1)
  else if decpt <=? 0 then "0." +:+ zeros (Z.to_nat (- decpt)) +:+ digits
  else if decpt <? Z.of_nat n then
    String.substring 0 (Z.to_nat decpt) digits +:+ "." +:+
    String.substring (Z.to_nat decpt) (n - Z.to_nat decpt) digits
  else digits +:+ zeros (Z.to_nat decpt - n) +:+ ".0".

(** [str(x)] for a float: 12 significant digits. *)
Definition str (x : spec_float) : string :=
  match x with
  | S754_nan => "nan"
  | S754_infinity s => if s then "-inf" else "inf"
  | S754_zero s => (if s then "-" else "") +:+ format_g12 "0" 1
  | S754_finite s m e =>
      let '(digits, decpt) := dtoa 12 m e in
      (if s then "-" else "") +:+ format_g12 digits decpt
  end.

Definition lower (c : ascii) : ascii :=
  let n := nat_of_ascii c in
  if (65 <=? n)%nat && (n <=? 90)%nat then ascii_of_nat (n + 32) else c.

Fixpoint lowercase (s : string) : string :=
  match s with "" => "" | String c s' => String (lower c) (lowercase s') end.

(** The first ['e'] or ['E'] splits mantissa and exponent. *)
Fixpoint split_exponent (s : string) : string * option string :=
  match s with
  | "" => ("", None)
  | String c s' =>
      if Ascii.eqb (lower c) "e" then ("", Some s')
      else let '(m, e) := split_exponent s' in (String c m, e)
  end.

Definition signed_digits (s : string) : option Z :=
  match s with
  | String "+" t => Z.of_uint <$> NilZero.uint_of_string t
  | t => Z.of_int <$> NilZero.int_of_string t
  end.

(** [digits [. digits]] or [. digits], as an integer and the number of
    digits after the point. *)
Definition mantissa (s : string) : option (Z * Z) :=
  let '(ip, fp) :=
    match partition "." s with
    | Some (ip, fp) => (ip, fp)
    | None => (s, "")
    end in
  if forallb is_digit ip && forallb is_digit fp
     && negb (String.eqb (ip +:+ fp) "") then
    (λ d, (Z.of_uint d, len fp)) <$> NilEmpty.uint_of_string (ip +:+ fp)
  else None.

(** [n * 10 ^ e10] rounded to the nearest binary64, ties to even. *)
Definition of_decimal (s : bool) (n e10 : Z) : spec_float :=
  if n =? 0 then S754_zero s
  else if 0 <=? e10 then
    binary_normalize prec emax (if s then - (n * 10 ^ e10) else n * 10 ^ e10) 0 s
  else
    let '(mz, ez, lz) := SFdiv_core_binary prec emax n 0 (10 ^ (- e10)) 0 in
    binary_round_aux prec emax s mz ez lz.

(** [float(s)] for a byte string; [None] stands for [ValueError]. *)
Definition of_str (s : string) : option spec_float :=
  let t := rstrip (lstrip s) in
  let '(neg, t) :=
    match t with
    | String "-" t' => (true, t')
    | String "+" t' => (false, t')
    | _ => (false, t)
    end in
  let l := lowercase t in
  if String.eqb l "inf" || String.eqb l "infinity" then Some (S754_infinity neg)
  else if String.eqb l "nan" then Some S754_nan
  else
    let '(m, e) := split_exponent t in
    '(n, nfrac) ← mantissa m;
    e10 ← match e with Some e => signed_digits e | None => Some 0 end;
    Some (of_decimal neg n (e10 - nfrac)).

End Float.

(** ** Python values *)

#[local] Set Warnings "-register-all".

(** The values that are put into a request and come back from
    [json.loads]. Strings decoded from JSON are taken as byte strings. *)
Inductive pyval :=
| PNone
| PBool (b : bool)
| PInt (n : Z)
| PFloat (x : spec_float)
| PStr (s : string)
| PTuple (l : list pyval)
| PList (l : list pyval)
| PDict (d : gmap string pyval).

Module Value.
Import Py.

Definition of_option {A} (e : exn) (o : option A) : result A :=
  match o with Some a => Val a | None => Raise e end.

(** [v[k]] for a string key *)
Definition getitem (v : pyval) (k : string) : result pyval :=
  match v with
  | PDict d => of_option KeyError (d !! k)
  | _ => Raise TypeError
  end.

(** [v[i]] for a non-negative index *)
Definition getitem_index (v : pyval) (i : nat) : result pyval :=
  match v with
  | PTuple l | PList l => of_option IndexError (l !! i)
  | PStr s => of_option IndexError ((λ c, PStr (String c "")) <$> String.get i s)
  | PDict _ => Raise KeyError
  | _ => Raise TypeError
  end.

(** [int(x)] of a float drops the fraction. *)
Definition trunc (x : spec_float) : result Z :=
  match x with
  | S754_zero _ => Val 0
  | S754_nan => Raise ValueError
  | S754_infinity _ => Raise OverflowError
  | S754_finite s m e =>
      let a := if 0 <=? e then Z.pos m * 2 ^ e else Z.pos m / 2 ^ (- e) in
      Val (if s then - a else a)
  end.

(** [float(n)] of an integer *)
Definition float_of_int (n : Z) : result spec_float :=
  match binary_normalize Float.prec Float.emax n 0 false with
  | S754_infinity _ => Raise OverflowError
  | x => Val x
  end.

(** [int(v)] *)
Definition int (v : pyval) : result Z :=
  match v with
  | PStr s => of_option ValueError (Py.int s)
  | PInt n => Val n
  | PBool b => Val (if b then 1 else 0)
  | PFloat x => trunc x
  | _ => Raise TypeError
  end.

(** [float(v)] *)
Definition float (v : pyval) : result spec_float :=
  match v with
  | PStr s => of_option ValueError (Float.of_str s)
  | PInt n => float_of_int n
  | PBool b => float_of_int (if b then 1 else 0)
  | PFloat x => Val x
  | _ => Raise TypeError
  end.

Fixpoint find (x : string) (l : list string) : option nat :=
  match l with
  | [] => None
  | y :: l' => if String.eqb y x then Some O else S <$> find x l'
  end.

(** [l.index(v)] on a list of strings: the first position holding a value
    equal to [v], [ValueError] when there is none. *)
Definition index (l : list string) (v : pyval) : result nat :=
  match v with
  | PStr s => of_option ValueError (find s l)
  | _ => Raise ValueError
  end.

End Value.

(** ** The client *)

(** What the [random] module hands out in one call of
    [generate_random_request]: the position [random.choice] picks, the two
    results of [random.uniform(0.0, 100.0)], and the random values the
    two encryptions use. *)
Record draw := {
  pick : nat;
  uniform_1 : spec_float;
  uniform_2 : spec_float;
  r_1 : Z;
  r_2 : Z;
}.

(** The process state the claims are about: the global [correctness], and
    the socket as the script sees it. *)
Record world := {
  correctness : gmap string (list Z);
  (** results of the coming [sock.recv] calls *)
  incoming : list recv_result;
  (** results of the coming [sock.sendall] calls: [Some errno] raises
      [socket.error], [None] (or nothing left) writes everything *)
  sendall_errors : list (option Z);
  (** arguments of the [sock.sendall] calls that went through *)
  outgoing : list string;
  closed : bool;
}.

Definition set_correctness (c : gmap string (list Z)) (w : world) : world :=
  {| correctness := c; incoming := incoming w;
     sendall_errors := sendall_errors w; outgoing := outgoing w;
     closed := closed w |}.

Definition set_incoming (l : list recv_result) (w : world) : world :=
  {| correctness := correctness w; incoming := l;
     sendall_errors := sendall_errors w; outgoing := outgoing w;
     closed := closed w |}.

(** State and exceptions: the state reached is kept when a step raises. *)
Definition M (A : Type) : Type := world → result A * world.

#[global] Instance M_ret : MRet M := λ A a w, (Val a, w).
#[global] Instance M_bind : MBind M := λ A B f m w,
  match m w with
  | (Val a, w') => f a w'
  | (Raise e, w') => (Raise e, w')
  | (Blocked, w') => (Blocked, w')
  end.

Definition lift {A} (r : result A) : M A := λ w, (r, w).

Definition get_correctness : M (gmap string (list Z)) :=
  λ w, (Val (correctness w), w).
Definition put_correctness (c : gmap string (list Z)) : M unit :=
  λ w, (Val (), set_correctness c w).

(** [sock.sendall(data)] *)
Definition sendall (data : string) : M unit := λ w,
  match sendall_errors w with
  | Some errno :: errors =>
      (Raise (Py.SocketError errno),
       {| correctness := correctness w; incoming := incoming w;
          sendall_errors := errors; outgoing := outgoing w;
          closed := closed w |})
  | errors =>
      (Val (),
       {| correctness := correctness w; incoming := incoming w;
          sendall_errors := tail errors; outgoing := outgoing w ++ [data];
          closed := closed w |})
  end.

(** [sock.close()] *)
Definition close (w : world) : world :=
  {| correctness := correctness w; incoming := incoming w;
     sendall_errors := sendall_errors w; outgoing := outgoing w;
     closed := true |}.
Definition sock_close : M unit := λ w, (Val (), close w).

(** Lines 175-191 on the socket of the state. *)
Definition recv_response : M string := λ w,
  let '(r, rest) := Framing.recv_loop (incoming w) "" 1 in (r, set_incoming rest w).

Definition EAGAIN : Z := 11.
Definition EWOULDBLOCK : Z := 11.

(** Line 28 *)
Definition operations : list string := ["x*"; "+"; "+*"].

(** Lines 30-35 *)
Definition get_expected_result (operand_1 operand_2 : spec_float)
    (operation : string) : spec_float :=
  if String.eqb operation "x*" then Float.mul operand_1 operand_2
  else Float.add operand_1 operand_2.

(** [random.choice(seq)] returns [seq[k]] for some [k < len(seq)]. *)
Definition random_choice (seq : list string) (k : nat) : string :=
  seq !!! (k mod length seq)%nat.

Definition counters0 : list Z := [0; 0; 0; 0; 0; 0].

(** How a round that did not end the run went. *)
Inductive round_end :=
| Recorded (echoed : pyval) (correct : bool)
| Skipped.

Record round_log := {
  log_mode : string;
  issued : string;
  ending : round_end;
}.

Inductive status :=
| Finished
| Exited (code : Z)
| Uncaught (e : Py.exn)
| Hung.

(** What the script takes from outside: the key pair of line 22 and the
    [phe] operations on it, the [json] codec, the [random] module, and
    the plotting. *)
Record env := {
  g : Z;
  n : Z;
  (** [public_key.encrypt(x)] with its random value: ciphertext and exponent *)
  encrypt : Z → spec_float → Z * Z;
  (** [private_key.decrypt(EncryptedNumber(public_key, c, e))] *)
  decrypt : Z → Z → result spec_float;
  json_dumps : pyval → string;
  (** [json.loads]; [None] stands for [ValueError] *)
  json_loads : string → option pyval;
  (** the random draws of iteration [i] in mode [mode] *)
  draws : string → nat → draw;
  (** [print_graph(processing_times)] returns, or raises what it holds *)
  print_graph : option Py.exn;
}.

Section Client.

Variable E : env.

(** Lines 37-78, without the timing samples. *)
Definition generate_random_request (mode : string) (d : draw)
  : spec_float * spec_float * spec_float * gmap string pyval :=
  let message : gmap string pyval := ∅ in
  let message := <["type" := PStr "request"]> message in
  let message := <["mode" := PStr mode]> message in
  let message :=
    <["public_key" := PDict (<["n" := PInt (n E)]> (<["g" := PInt (g E)]> ∅))]> message in
  let operation := random_choice operations (pick d) in
  let message := <["operation" := PStr operation]> message in
  let operand_1 := uniform_1 d in
  let operand_2 := uniform_2 d in
  let expected_result := get_expected_result operand_1 operand_2 operation in
  let message :=
    if String.eqb mode "encrypted" then
      let encrypted_operand_1 := encrypt E (r_1 d) operand_1 in
      let message :=
        <["operand_1" := PTuple [PStr (Py.str encrypted_operand_1.1);
                                 PInt encrypted_operand_1.2]]> message in
      if String.eqb operation "+" then
        let encrypted_operand_2 := encrypt E (r_2 d) operand_2 in
        <["operand_2" := PTuple [PStr (Py.str encrypted_operand_2.1);
                                 PInt encrypted_operand_2.2]]> message
      else <["operand_2" := PStr (Float.str operand_2)]> message
    else
      let message := <["operand_1" := PStr (Float.str operand_1)]> message in
      <["operand_2" := PStr (Float.str operand_2)]> message in
  (operand_1, operand_2, expected_result, message).

(** Lines 171-173, 248-250 and 258-260 *)
Definition send_message (message : gmap string pyval) : M unit :=
  let body := json_dumps E (PDict message) in
  sendall (Framing.frame body).

(** Lines 195-210: the numeric result and the operation the response
    names (the [print] calls read it). *)
Definition decode (mode : string) (response : pyval) : M (spec_float * pyval) :=
  if String.eqb mode "encrypted" then
    r ← lift (Value.getitem response "result");
    r0 ← lift (Value.getitem_index r 0);
    ciphertext ← lift (Value.int r0);
    r ← lift (Value.getitem response "result");
    r1 ← lift (Value.getitem_index r 1);
    exponent ← lift (Value.int r1);
    result ← lift (decrypt E ciphertext exponent);
    operation ← lift (Value.getitem response "operation");
    mret (result, operation)
  else
    r ← lift (Value.getitem response "result");
    result ← lift (Value.float r);
    operation ← lift (Value.getitem response "operation");
    mret (result, operation).

(** [if key not in correctness: correctness[key] = [0, 0, 0, 0, 0, 0]]
    and then
    [correctness[key][operations.index(response['operation'])] += 1] *)
Definition tally (key : string) (response : pyval) : M unit :=
  c ← get_correctness;
  (if bool_decide (c !! key = None) then put_correctness (<[key := counters0]> c)
   else mret ());;
  c ← get_correctness;
  counters ← lift (Value.of_option Py.KeyError (c !! key));
  operation ← lift (Value.getitem response "operation");
  idx ← lift (Value.index operations operation);
  old ← lift (Value.of_option Py.IndexError (counters !! idx));
  put_correctness (<[key := <[idx := old + 1]> counters]> c).

(** Lines 212-224 *)
Definition record_outcome (result expected_result : spec_float)
    (response : pyval) : M unit :=
  if Float.ne result expected_result then tally "wrong" response
  else tally "correct" response.

(** Lines 166-224: the body of the [try]. *)
Definition round (mode : string) (i : nat) : M round_log :=
  let '(operand_1, operand_2, expected_result, body) :=
    generate_random_request mode (draws E mode i) in
  send_message body;;
  response ← recv_response;
  payload ← lift (Value.of_option Py.IndexError (Py.split1 Py.CRLF response !! 1%nat));
  response ← lift (Value.of_option Py.ValueError (json_loads E payload));
  '(result, operation) ← decode mode response;
  record_outcome result expected_result response;;
  mret {| log_mode := mode;
          issued := random_choice operations (pick (draws E mode i));
          ending := Recorded operation (negb (Float.ne result expected_result)) |}.

(** Lines 162-237: the inner [for] with its [except socket.error]. *)
Fixpoint for_xrange (mode : string) (range : list nat) (w : world)
  : status * list round_log * world :=
  match range with
  | [] => (Finished, [], w)
  | i :: range' =>
      match round mode i w with
      | (Val log, w') =>
          let '(st, logs, w'') := for_xrange mode range' w' in
          (st, log :: logs, w'')
      | (Raise (Py.SocketError err), w') =>
          if (err =? EAGAIN) || (err =? EWOULDBLOCK) then
            let '(st, logs, w'') := for_xrange mode range' w' in
            (st, {| log_mode := mode;
                    issued := random_choice operations (pick (draws E mode i));
                    ending := Skipped |} :: logs, w'')
          else (Exited 1, [], close w')
      | (Raise e, w') => (Uncaught e, [], w')
      | (Blocked, w') => (Hung, [], w')
      end
  end.

(** Line 160: the outer [for]. *)
Fixpoint for_modes (modes : list string) (nr_ops : Z) (w : world)
  : status * list round_log * world :=
  match modes with
  | [] => (Finished, [], w)
  | mode :: modes' =>
      match for_xrange mode (seq 0 (Z.to_nat nr_ops)) w with
      | (Finished, logs, w') =>
          let '(st, logs', w'') := for_modes modes' nr_ops w' in
          (st, logs ++ logs', w'')
      | r => r
      end
  end.

(** Lines 239-262; after the loops [mode] is ['unencrypted']. *)
Definition finish (plot : bool) : M unit :=
  let mode := "unencrypted" in
  (if String.eqb mode "unencrypted" && plot then
     lift (match print_graph E with Some e => Raise e | None => Val () end);;
     send_message (<["mode" := PStr mode]> (<["type" := PStr "plot"]> ∅))
   else
     send_message (<["mode" := PStr mode]> (<["type" := PStr "terminate"]> ∅)));;
  sock_close.

(** Lines 159-262 *)
Definition main (plot : bool) (nr_ops : Z) (w : world)
  : status * list round_log * world :=
  match for_modes ["encrypted"; "unencrypted"] nr_ops w with
  | (Finished, logs, w') =>
      match finish plot w' with
      | (Val _, w'') => (Finished, logs, w'')
      | (Raise e, w'') => (Uncaught e, logs, w'')
      | (Blocked, w'') => (Hung, logs, w'')
      end
  | r => r
  end.

(** The counter [correctness[key][i]]; [0] while the vector is not there. *)
Definition counter (w : world) (key : string) (i : nat) : Z :=
  default 0 (correctness w !! key ≫= (.!! i)).

End Client.

(** The expected result of the request drawn as [d]. *)
Definition expected (d : draw) : spec_float :=
  get_expected_result (uniform_1 d) (uniform_2 d)
    (random_choice operations (pick d)).

(** [correct[j] + wrong[j]] *)
Definition total (w : world) (j : nat) : Z :=
  counter w "correct" j + counter w "wrong" j.

(** Every tally vector there is has six slots. *)
Definition six_slots (c : gmap string (list Z)) : Prop :=
  ∀ key v, c !! key = Some v → length v = 6%nat.

(** Vectors as the script makes them: six slots, the last three at zero. *)
Definition tidy_vector (v : list Z) : Prop :=
  length v = 6%nat ∧ v !! 3%nat = Some 0 ∧ v !! 4%nat = Some 0 ∧ v !! 5%nat = Some 0.

(** ['wrong'] and ['correct'] are the only keys, and their vectors are
    tidy. *)
Definition tidy (c : gmap string (list Z)) : Prop :=
  ∀ key v, c !! key = Some v → (key = "wrong" ∨ key = "correct") ∧ tidy_vector v.

(** An operand as it is sent encrypted: the ciphertext in decimal and the
    exponent, as a pair. *)
Definition encrypted_operand (E : env) (r : Z) (x : spec_float) : pyval :=
  PTuple [PStr (Py.str (encrypt E r x).1); PInt (encrypt E r x).2].

(** An operand as it is sent in the clear. *)
Definition plaintext_operand (x : spec_float) : pyval := PStr (Float.str x).

Definition is_pair (v : option pyval) : Prop :=
  ∃ c e, v = Some (PTuple [PStr c; PInt e]).

(** The number of requests for [op] among the rounds of a run. *)
Fixpoint issued_count (op : string) (logs : list round_log) : Z :=
  match logs with
  | [] => 0
  | l :: logs' => (if String.eqb (issued l) op then 1 else 0) + issued_count op logs'
  end.

(** A round in which the response named the operation that was asked for. *)
Definition echoes_issued (l : round_log) : Prop :=
  ∃ correct, ending l = Recorded (PStr (issued l)) correct.

(** The states the script can be in between two rounds. *)
Inductive reachable (E : env) : world → Prop :=
| reachable_start (w : world) :
    correctness w = ∅ → reachable E w
| reachable_round (mode : string) (i : nat) (w w' : world) (r : result round_log) :
    reachable E w → round E mode i w = (r, w') → reachable E w'
| reachable_finish (plot : bool) (w w' : world) (r : result ()) :
    reachable E w → finish E plot w = (r, w') → reachable E w'
| reachable_close (w : world) :
    reachable E w → reachable E (close w).

(** ** A concrete setting *)

(** One environment and a few socket scripts, to run the definitions on. *)
Module Sample.

Definition quote : string := String (ascii_of_nat 34) "".
Definition quoted (s : string) : string := quote +:+ s +:+ quote.

Definition flt (s : string) : spec_float := default S754_nan (Float.of_str s).

(** The body of an unencrypted response, as the server's [json.dumps]
    writes it. *)
Definition plain_response (operation result : string) : string :=
  "{" +:+ quoted "operation" +:+ ": " +:+ quoted operation +:+ ", " +:+
  quoted "type" +:+ ": " +:+ quoted "response" +:+ ", " +:+
  quoted "result" +:+ ": " +:+ quoted result +:+ "}".

(** The body of an encrypted response. *)
Definition encrypted_response (operation ciphertext exponent : string) : string :=
  "{" +:+ quoted "operation" +:+ ": " +:+ quoted operation +:+ ", " +:+
  quoted "type" +:+ ": " +:+ quoted "response" +:+ ", " +:+
  quoted "result" +:+ ": [" +:+ quoted ciphertext +:+ ", " +:+ exponent +:+ "]}".

(** [json.loads] on the three documents used below. *)
Definition loads (s : string) : option pyval :=
  if String.eqb s (plain_response "x*" "7.875") then
    Some (PDict (<["result" := PStr "7.875"]>
                   (<["type" := PStr "response"]>
                      (<["operation" := PStr "x*"]> ∅))))
  else if String.eqb s (encrypted_response "+" "1234567" "-13") then
    Some (PDict (<["result" := PList [PStr "1234567"; PInt (-13)]]>
                   (<["type" := PStr "response"]>
                      (<["operation" := PStr "+"]> ∅))))
  else if String.eqb s (encrypted_response "x*" "1234567" "-13") then
    Some (PDict (<["result" := PList [PStr "1234567"; PInt (-13)]]>
                   (<["type" := PStr "response"]>
                      (<["operation" := PStr "x*"]> ∅))))
  else None.

(** A stand-in for [json.dumps] that writes the [type] field only; what
    the requests look like on the wire plays no part below. *)
Definition dumps (v : pyval) : string :=
  match v with
  | PDict d =>
      match d !! "type" with
      | Some (PStr t) => "{" +:+ quoted "type" +:+ ": " +:+ quoted t +:+ "}"
      | _ => "{}"
      end
  | _ => "null"
  end.

(** Every iteration draws ['x*'] with the operands 3.5 and 2.25; every
    decryption gives 7.875. *)
Definition E : env := {|
  g := 36; n := 35;
  encrypt := λ r x, (1234567 + r, -13);
  decrypt := λ c e, Val (flt "7.875");
  json_dumps := dumps;
  json_loads := loads;
  draws := λ mode i, {| pick := 0; uniform_1 := flt "3.5"; uniform_2 := flt "2.25";
                        r_1 := 17; r_2 := 23 |};
  print_graph := None;
|}.

Definition start_with (incoming : list recv_result) : world :=
  {| correctness := ∅; incoming := incoming; sendall_errors := [];
     outgoing := []; closed := false |}.

Definition start : world := start_with [].

Definition terminate : gmap string pyval :=
  <["mode" := PStr "unencrypted"]> (<["type" := PStr "terminate"]> ∅).

Definition start_sent : world :=
  {| correctness := ∅; incoming := []; sendall_errors := [];
     outgoing := [Framing.frame (dumps (PDict terminate))]; closed := false |}.

(** The server answers the first request with the wrong operation. *)
Definition wrong_echo : world :=
  start_with [RecvData (Framing.frame (encrypted_response "+" "1234567" "-13"));
              RecvData (Framing.frame (plain_response "x*" "7.875"))].

(** The first [recv] raises [EAGAIN]. *)
Definition would_block : world :=
  start_with [RecvError EAGAIN;
              RecvData (Framing.frame (plain_response "x*" "7.875"))].

(** [random.uniform(0.0, 100.0)] when [random.random()] returns
    [(2 ^ 52 + 1) / 2 ^ 53]: the float next but one after 50.0. *)
Definition lossy_operand : spec_float :=
  let a := flt "0.0" in
  let b := flt "100.0" in
  Float.add a (Float.mul (Float.sub b a) (S754_finite false 4503599627370497 (-53))).

(** A server that answers as asked. *)
Definition well_behaved : world :=
  start_with [RecvData (Framing.frame (encrypted_response "x*" "1234567" "-13"));
              RecvData (Framing.frame (plain_response "x*" "7.875"))].

(** Sample sockets for the properties of whole runs. *)

(** The first [sendall] fails with [EPIPE]. *)
Definition broken_pipe : world :=
  {| correctness := ∅; incoming := []; sendall_errors := [Some 32];
     outgoing := []; closed := false |}.

(** The two requests go out, the send of the last message fails. *)
Definition last_send_fails : world :=
  {| correctness := ∅;
     incoming :=
       [RecvData (Framing.frame (encrypted_response "x*" "1234567" "-13"));
        RecvData (Framing.frame (plain_response "x*" "7.875"))];
     sendall_errors := [None; None; Some 32];
     outgoing := []; closed := false |}.

(** The server answers with something that is not JSON. *)
Definition garbled : world := start_with [RecvData (Framing.frame "oops")].

End Sample.

(** ** The rest of the script *)



(** The frame that iteration [i] of mode [mode] writes. *)
Definition request_frame (E : env) (mode : string) (i : nat) : string :=
  Framing.frame
    (json_dumps E (PDict (generate_random_request E mode (draws E mode i)).2)).

(** Lines 244-260: the message after the loops. *)
Definition last_message (plot : bool) : gmap string pyval :=
  if plot then <["mode" := PStr "unencrypted"]> (<["type" := PStr "plot"]> ∅)
  else <["mode" := PStr "unencrypted"]> (<["type" := PStr "terminate"]> ∅).

(** The number of rounds that ended with a response naming [op] and with
    the verdict [correct]. *)
Fixpoint recorded_count (op : string) (correct : bool) (logs : list round_log) : Z :=
  match logs with
  | [] => 0
  | l :: logs' =>
      match ending l with
      | Recorded (PStr s) b =>
          if String.eqb s op && Bool.eqb b correct then 1 else 0
      | _ => 0
      end + recorded_count op correct logs'
  end.

(** *** The timing samples *)

(** The global [processing_times], a [defaultdict(list)], and the number
    of [time.time()] calls made so far; call number [k] returns [now k]. *)
Record stopwatch := {
  processing_times : gmap string (list spec_float);
  ticks : nat;
}.

(** [processing_times[key].append(x)]; a missing key starts as [[]]. *)
Definition append_sample (key : string) (x : spec_float)
    (times : gmap string (list spec_float)) : gmap string (list spec_float) :=
  <[key := default [] (times !! key) ++ [x]]> times.

(** [start_time = time.time()], then the timed call (which has returned
    [y]), then [processing_times[key].append(time.time() - start_time)]. *)
Definition timed {A} (now : nat → spec_float) (key : string) (y : A)
    (t : stopwatch) : A * stopwatch :=
  let start_time := now (ticks t) in
  (y, {| processing_times :=
           append_sample key (Float.sub (now (S (ticks t))) start_time)
             (processing_times t);
         ticks := S (S (ticks t)) |}).

(** Lines 37-78 with the timing samples of lines 59-61 and 66-68. *)
Definition generate_random_request_timed (E : env) (now : nat → spec_float)
    (mode : string) (d : draw) (t : stopwatch)
  : spec_float * spec_float * spec_float * gmap string pyval * stopwatch :=
  let message : gmap string pyval := ∅ in
  let message := <["type" := PStr "request"]> message in
  let message := <["mode" := PStr mode]> message in
  let message :=
    <["public_key" := PDict (<["n" := PInt (n E)]> (<["g" := PInt (g E)]> ∅))]>
      message in
  let operation := random_choice operations (pick d) in
  let message := <["operation" := PStr operation]> message in
  let operand_1 := uniform_1 d in
  let operand_2 := uniform_2 d in
  let expected_result := get_expected_result operand_1 operand_2 operation in
  let '(message, t) :=
    if String.eqb mode "encrypted" then
      let '(encrypted_operand_1, t) :=
        timed now "encrypt" (encrypt E (r_1 d) operand_1) t in
      let message :=
        <["operand_1" := PTuple [PStr (Py.str encrypted_operand_1.1);
                                 PInt encrypted_operand_1.2]]> message in
      if String.eqb operation "+" then
        let '(encrypted_operand_2, t) :=
          timed now "encrypt" (encrypt E (r_2 d) operand_2) t in
        (<["operand_2" := PTuple [PStr (Py.str encrypted_operand_2.1);
                                  PInt encrypted_operand_2.2]]> message, t)
      else (<["operand_2" := PStr (Float.str operand_2)]> message, t)
    else
      let message := <["operand_1" := PStr (Float.str operand_1)]> message in
      (<["operand_2" := PStr (Float.str operand_2)]> message, t) in
  (operand_1, operand_2, expected_result, message, t).

(** Lines 197-199: the two arguments of [EncryptedNumber] taken from the
    response. *)
Definition ciphertext_and_exponent (response : pyval) : result (Z * Z) :=
  match Value.getitem response "result" with
  | Val r =>
      match Value.getitem_index r 0 with
      | Val r0 =>
          match Value.int r0 with
          | Val ciphertext =>
              match Value.getitem_index r 1 with
              | Val r1 =>
                  match Value.int r1 with
                  | Val exponent => Val (ciphertext, exponent)
                  | Raise e => Raise e
                  | Blocked => Blocked
                  end
              | Raise e => Raise e
              | Blocked => Blocked
              end
          | Raise e => Raise e
          | Blocked => Blocked
          end
      | Raise e => Raise e
      | Blocked => Blocked
      end
  | Raise e => Raise e
  | Blocked => Blocked
  end.

(** Lines 195-210 with the timing sample of lines 201-203: the clock is
    read before [decrypt] is called, and once more, for the sample, when
    it has returned. *)
Definition decode_timed (E : env) (now : nat → spec_float) (mode : string)
    (response : pyval) (t : stopwatch) : result (spec_float * pyval) * stopwatch :=
  if String.eqb mode "encrypted" then
    match ciphertext_and_exponent response with
    | Val (ciphertext, exponent) =>
        let start_time := now (ticks t) in
        match decrypt E ciphertext exponent with
        | Val result =>
            let t' :=
              {| processing_times :=
                   append_sample "decrypt"
                     (Float.sub (now (S (ticks t))) start_time) (processing_times t);
                 ticks := S (S (ticks t)) |} in
            match Value.getitem response "operation" with
            | Val operation => (Val (result, operation), t')
            | Raise e => (Raise e, t')
            | Blocked => (Blocked, t')
            end
        | Raise e =>
            (Raise e, {| processing_times := processing_times t; ticks := S (ticks t) |})
        | Blocked =>
            (Blocked, {| processing_times := processing_times t; ticks := S (ticks t) |})
        end
    | Raise e => (Raise e, t)
    | Blocked => (Blocked, t)
    end
  else
    match Value.getitem response "result" with
    | Val r =>
        match Value.float r with
        | Val result =>
            match Value.getitem response "operation" with
            | Val operation => (Val (result, operation), t)
            | Raise e => (Raise e, t)
            | Blocked => (Blocked, t)
            end
        | Raise e => (Raise e, t)
        | Blocked => (Blocked, t)
        end
    | Raise e => (Raise e, t)
    | Blocked => (Blocked, t)
    end.

(** The number of samples under [key]. *)
Definition samples (key : string) (t : stopwatch) : nat :=
  length (default [] (processing_times t !! key)).

(** * Properties *)

(** ** Byte strings *)

Module StrFacts.
Import Py.

#[local] Arguments Ascii.eqb : simpl never.

Lemma app_nil_l (s : string) : "" +:+ s = s.
Proof. reflexivity. Qed.

Lemma app_cons (c : ascii) (s t : string) : String c s +:+ t = String c (s +:+ t).
Proof. reflexivity. Qed.

Lemma app_nil_r (s : string) : s +:+ "" = s.
Proof. induction s as [|c s IH]; [done|]. by rewrite app_cons, IH. Qed.

Lemma app_assoc (s t u : string) : (s +:+ t) +:+ u = s +:+ t +:+ u.
Proof. induction s as [|c s IH]; [done|]. by rewrite !app_cons, IH. Qed.

Lemma length_app (s t : string) :
  String.length (s +:+ t) = (String.length s + String.length t)%nat.
Proof. induction s as [|c s IH]; [done|]. rewrite app_cons. simpl. by rewrite IH. Qed.

Lemma len_app (s t : string) : len (s +:+ t) = len s + len t.
Proof. unfold len. rewrite length_app. lia. Qed.

Lemma len_nonneg (s : string) : 0 ≤ len s.
Proof. unfold len. lia. Qed.

Lemma len_0 (s : string) : len s = 0 → s = "".
Proof. destruct s; [done|]. unfold len. simpl. lia. Qed.

Lemma app_eq_nil (s t : string) : s +:+ t = "" → s = "" ∧ t = "".
Proof. destruct s; [done|]. rewrite app_cons. discriminate. Qed.

(** A prefix as long as the whole is the whole. *)
Lemma app_full (s t u : string) : s +:+ t = u → len u ≤ len s → s = u ∧ t = "".
Proof.
  intros <- Hlen. rewrite len_app in Hlen.
  assert (t = "") as -> by (apply len_0; pose proof (len_nonneg t); lia).
  by rewrite app_nil_r.
Qed.

Lemma join_cons (s : string) (l : list string) : join (s :: l) = s +:+ join l.
Proof. reflexivity. Qed.

Lemma join_empty (l : list string) : join l = "" → Forall (λ s, s = "") l.
Proof.
  induction l as [|s l IH]; [constructor|].
  rewrite join_cons. intros [-> ?]%app_eq_nil. constructor; auto.
Qed.

(** *** [partition] *)

Lemma strip_prefix_Some (p s after : string) :
  strip_prefix p s = Some after → s = p +:+ after.
Proof.
  revert s. induction p as [|a p IH]; intros s; simpl.
  - by intros [= <-].
  - destruct s as [|b s]; [done|].
    destruct (Ascii.eqb_spec a b) as [->|]; [|done].
    intros ->%IH. by rewrite app_cons.
Qed.


Lemma partition_Some (sep s before after : string) :
  partition sep s = Some (before, after) → s = before +:+ sep +:+ after.
Proof.
  revert before. induction s as [|c s IH]; intros before; simpl.
  - destruct (strip_prefix sep "") eqn:E; [|done].
    intros [= <- <-]. by apply strip_prefix_Some in E.
  - destruct (strip_prefix sep (String c s)) eqn:E.
    + intros [= <- <-]. by apply strip_prefix_Some in E.
    + destruct (partition sep s) as [[b a]|] eqn:E'; [|done].
      intros [= <- <-]. rewrite app_cons. f_equal. by apply IH.
Qed.

(** The delimiter is found right after a header free of [CR], in every
    prefix of the stream that is long enough to hold it. *)
Lemma partition_prefix (hdr : string) :
  forallb (λ c, negb (Ascii.eqb c CR)) hdr = true →
  ∀ a t P, a +:+ t = hdr +:+ CRLF +:+ P →
    partition CRLF a = None ∨ ∃ r, partition CRLF a = Some (hdr, r).
Proof.
  induction hdr as [|h hdr IH]; intros Hcr a t P Heq.
  - rewrite app_nil_l in Heq. unfold CRLF in Heq. rewrite !app_cons, app_nil_l in Heq.
    destruct a as [|c1 [|c2 a2]]; [by left| |].
    + rewrite app_cons in Heq. injection Heq as -> _. by left.
    + rewrite !app_cons in Heq. injection Heq as -> -> _. right. by exists a2.
  - simpl in Hcr. apply andb_prop in Hcr as [Hh Hcr].
    destruct a as [|c a]; [by left|].
    rewrite !app_cons in Heq. injection Heq as -> Heq.
    destruct (IH Hcr _ _ _ Heq) as [E|[r E]].
    + left. simpl. destruct (Ascii.eqb_spec CR h) as [<-|]; [by rewrite Ascii.eqb_refl in Hh|]. by rewrite E.
    + right. exists r. simpl. destruct (Ascii.eqb_spec CR h) as [<-|]; [by rewrite Ascii.eqb_refl in Hh|]. by rewrite E.
Qed.

Lemma partition_exact (hdr P : string) :
  forallb (λ c, negb (Ascii.eqb c CR)) hdr = true →
  partition CRLF (hdr +:+ CRLF +:+ P) = Some (hdr, P).
Proof.
  intros Hcr. induction hdr as [|h hdr IH]; [done|].
  simpl in Hcr. apply andb_prop in Hcr as [Hh Hcr].
  rewrite app_cons. simpl.
  destruct (Ascii.eqb_spec CR h) as [<-|]; [by rewrite Ascii.eqb_refl in Hh|]. by rewrite IH.
Qed.

End StrFacts.

(** ** Decimal integers *)

Module IntFacts.
Import Py StrFacts.

Lemma forallb_impl (p q : ascii → bool) (s : string) :
  (∀ c, p c = true → q c = true) → forallb p s = true → forallb q s = true.
Proof.
  intros Hpq. induction s as [|c s IH]; [done|]. simpl.
  intros [Hc Hs]%andb_prop. by rewrite (Hpq _ Hc), IH.
Qed.

Lemma digits_of_uint (d : uint) : forallb is_digit (NilEmpty.string_of_uint d) = true.
Proof. induction d; simpl; auto. Qed.

Lemma to_uint_nonnil (p : positive) : Pos.to_uint p ≠ Nil.
Proof.
  intros E. pose proof (DecimalPos.Unsigned.of_to p) as H.
  rewrite E in H. discriminate.
Qed.

(** [str] of a natural number is made of digits only. *)
Lemma str_digits (n : Z) : 0 ≤ n → forallb is_digit (str n) = true.
Proof.
  intros Hn. destruct n as [|p|p]; [done| |lia].
  unfold str. simpl. unfold NilZero.string_of_uint.
  destruct (Pos.to_uint p) eqn:E; [by apply to_uint_nonnil in E|..];
    apply digits_of_uint.
Qed.

Lemma digit_not_space (c : ascii) : is_digit c = true → Ascii.is_space c = false.
Proof.
  destruct c as [[] [] [] [] [] [] [] []]; vm_compute; congruence.
Qed.

Lemma digit_not_CR (c : ascii) : is_digit c = true → negb (Ascii.eqb c CR) = true.
Proof.
  destruct c as [[] [] [] [] [] [] [] []]; vm_compute; congruence.
Qed.

Lemma digit_not_sign (c : ascii) :
  is_digit c = true → Ascii.eqb c "+" = false ∧ Ascii.eqb c "-" = false.
Proof.
  destruct c as [[] [] [] [] [] [] [] []]; vm_compute; split; congruence.
Qed.

Lemma lstrip_id (c : ascii) (s : string) :
  Ascii.is_space c = false → lstrip (String c s) = String c s.
Proof. intros H. simpl. by rewrite H. Qed.

Lemma rstrip_id (s : string) :
  forallb (λ c, negb (Ascii.is_space c)) s = true → rstrip s = s.
Proof.
  induction s as [|c s IH]; [done|]. simpl.
  intros [Hc Hs]%andb_prop. rewrite (IH Hs).
  destruct s; [|done]. by destruct (Ascii.is_space c).
Qed.

(** [int(str(n)) == n] *)
Lemma int_str (n : Z) : 0 ≤ n → int (str n) = Some n.
Proof.
  intros Hn. pose proof (str_digits n Hn) as Hd.
  assert (NilZero.int_of_string (str n) = Some (Z.to_int n)) as Hi.
  { unfold str. apply NilZero.isi; destruct n as [|p|p]; try done;
      simpl; intros [= E]; by apply to_uint_nonnil in E. }
  destruct (str n) as [|c s] eqn:E; [done|].
  pose proof Hd as Hd'. simpl in Hd'. apply andb_prop in Hd' as [Hc Hs].
  unfold int. rewrite lstrip_id by by apply digit_not_space.
  rewrite rstrip_id.
  2:{ eapply forallb_impl; [|exact Hd]. intros a Ha.
      by rewrite (digit_not_space _ Ha). }
  destruct (digit_not_sign _ Hc) as [Hplus _].
  assert (Z.of_int <$> NilZero.int_of_string (String c s) = Some n) as Hz.
  { rewrite Hi. simpl. f_equal. apply DecimalZ.of_to. }
  destruct c as [[] [] [] [] [] [] [] []]; try discriminate Hplus; exact Hz.
Qed.

Lemma str_no_CR (n : Z) :
  0 ≤ n → forallb (λ c, negb (Ascii.eqb c CR)) (str n) = true.
Proof.
  intros Hn. eapply forallb_impl; [|by apply str_digits].
  apply digit_not_CR.
Qed.

End IntFacts.

(** ** The framing on the socket *)

Module FramingFacts.
Import Py Framing StrFacts IntFacts.

Lemma recv_loop_eq (incoming : list recv_result) (response : string) (size : Z) :
  recv_loop incoming response size =
  if len response <? size then
    match incoming with
    | [] => (Blocked, [])
    | RecvError errno :: incoming' => (Raise (SocketError errno), incoming')
    | RecvData chunk :: incoming' =>
        match expected_size (response +:+ chunk) with
        | Val size' => recv_loop incoming' (response +:+ chunk) size'
        | Raise e => (Raise e, incoming')
        | Blocked => (Blocked, incoming')
        end
    end
  else (Val response, incoming).
Proof. by destruct incoming. Qed.

Lemma len_CRLF : len CRLF = 2.
Proof. reflexivity. Qed.

Lemma len_frame (P : string) : len (frame P) = len (str (len P)) + 2 + len P.
Proof. unfold frame. rewrite !len_app, len_CRLF. lia. Qed.

Lemma partition_frame (P : string) :
  partition CRLF (frame P) = Some (str (len P), P).
Proof. apply partition_exact, str_no_CR, len_nonneg. Qed.

(** While a frame is arriving the reader asks for the whole frame as soon
    as it sees the delimiter, and for one more byte before that. *)
Lemma expected_size_prefix (P a t : string) :
  a +:+ t = frame P →
  expected_size a = Val (if contains CRLF a then len (frame P) else len a + 1).
Proof.
  intros Heq. unfold expected_size, contains, split1.
  destruct (partition_prefix (str (len P)) (str_no_CR _ (len_nonneg P)) a t P Heq)
    as [E|[r E]]; rewrite E; [done|].
  rewrite int_str by apply len_nonneg. by rewrite len_frame.
Qed.

Lemma recv_loop_frame (P : string) (rest : list recv_result) (chunks : list string) :
  ∀ acc, acc +:+ join chunks = frame P →
    ∃ used leftover,
      chunks = used ++ leftover ∧ Forall (λ s, s = "") leftover ∧
      recv_loop ((RecvData <$> chunks) ++ rest) acc
        (if contains CRLF acc then len (frame P) else len acc + 1)
      = (Val (frame P), (RecvData <$> leftover) ++ rest).
Proof.
  induction chunks as [|c cs IH]; intros acc Heq.
  - change (join []) with "" in Heq. rewrite app_nil_r in Heq. subst acc.
    exists [], []. split; [done|]. split; [constructor|].
    rewrite recv_loop_eq. unfold contains. rewrite partition_frame.
    by rewrite Z.ltb_irrefl.
  - rewrite join_cons in Heq. rewrite recv_loop_eq.
    destruct (Z.ltb_spec (len acc)
      (if contains CRLF acc then len (frame P) else len acc + 1)) as [Hlt|Hge].
    + rewrite <- app_assoc in Heq.
      destruct (IH _ Heq) as (used & leftover & -> & Hempty & Hloop).
      exists (c :: used), leftover. split; [done|]. split; [done|].
      rewrite fmap_cons. cbn [app].
      by rewrite (expected_size_prefix P _ _ Heq).
    + destruct (contains CRLF acc); [|lia].
      destruct (app_full _ _ _ Heq Hge) as [-> Hnil].
      exists [], (c :: cs). split; [done|]. split; [|done].
      apply join_empty. by rewrite join_cons.
Qed.

(** What [recv_loop] has done when it hands over a buffer: it has used a
    run of data chunks, the buffer is as long as its own expected size,
    and before the last chunk it was not. *)
Lemma recv_loop_Val (incoming : list recv_result) :
  ∀ acc size response rest,
    expected_size acc = Val size →
    recv_loop incoming acc size = (Val response, rest) →
    ∃ chunks,
      incoming = (RecvData <$> chunks) ++ rest ∧
      response = acc +:+ join chunks ∧
      (∃ size', expected_size response = Val size' ∧ size' ≤ len response) ∧
      (∀ chunks' c, chunks = chunks' ++ [c] →
         ∃ s, expected_size (acc +:+ join chunks') = Val s ∧
              len (acc +:+ join chunks') < s).
Proof.
  induction incoming as [|[c|errno] incoming IH]; intros acc size response rest Hsize;
    rewrite recv_loop_eq; destruct (Z.ltb_spec (len acc) size) as [Hlt|Hge];
    try discriminate.
  - intros [= <- <-]. exists []. change (join []) with "". rewrite app_nil_r.
    split_and!; eauto. by intros [|??] ?.
  - destruct (expected_size (acc +:+ c)) as [size1| |] eqn:Hsize1; try discriminate.
    intros Hloop. destruct (IH _ _ _ _ Hsize1 Hloop) as (chunks & -> & -> & Hdone & Hlast).
    exists (c :: chunks). rewrite join_cons, <- app_assoc.
    split_and!; try done.
    intros [|c' chunks'] c0 [= <- E].
    + change (join []) with "". rewrite app_nil_r. eauto.
    + rewrite join_cons, <- app_assoc. by apply (Hlast _ c0).
  - intros [= <- <-]. exists []. change (join []) with "". rewrite app_nil_r.
    split_and!; eauto. by intros [|??] ?.
  - intros [= <- <-]. exists []. change (join []) with "". rewrite app_nil_r.
    split_and!; eauto. by intros [|??] ?.
Qed.






End FramingFacts.

(** ** The built-ins on some inputs *)

Module Examples.
Import Py.

Example int_examples :
  int " 12 " = Some 12 ∧ int "-0" = Some 0 ∧ int "+7" = Some 7 ∧
  int "0012" = Some 12 ∧ int "" = None ∧ int "1 2" = None ∧ int "- 5" = None ∧
  int "12L" = None ∧ int "0x10" = None.
Proof. by vm_compute. Qed.

Example str_examples : str 0 = "0" ∧ str 4096 = "4096" ∧ str (-13) = "-13".
Proof. by vm_compute. Qed.

Example split1_examples :
  split1 "," "a,b,c" = ["a"; "b,c"] ∧ split1 "," "abc" = ["abc"] ∧
  contains CRLF ("12" +:+ String CR "") = false.
Proof. by vm_compute. Qed.

(** 0.1 is [0x1.999999999999ap-4], and 0.1 + 0.2 is not 0.3. *)
Example float_of_str_examples :
  Float.of_str "0.1" = Some (S754_finite false 7205759403792794 (-56)) ∧
  Float.of_str " -1.5E+1 " = Some (S754_finite true 8444249301319680 (-49)) ∧
  Float.of_str "1e400" = Some (S754_infinity false) ∧
  Float.of_str "Infinity" = Some (S754_infinity false) ∧
  Float.of_str "1e" = None ∧ Float.of_str "." = None ∧ Float.of_str "1.2.3" = None ∧
  Float.ne (Float.add (Sample.flt "0.1") (Sample.flt "0.2")) (Sample.flt "0.3") = true.
Proof. by vm_compute. Qed.

Example float_str_examples :
  Float.str (Sample.flt "100") = "100.0" ∧
  Float.str (Float.add (Sample.flt "0.1") (Sample.flt "0.2")) = "0.3" ∧
  Float.str (Sample.flt "33.333333333333336") = "33.3333333333" ∧
  Float.str (Sample.flt "99.99999999999996") = "100.0" ∧
  Float.str (Sample.flt "0.0001") = "0.0001" ∧
  Float.str (Sample.flt "0.00001") = "1e-05" ∧
  Float.str (Sample.flt "12345678901") = "12345678901.0" ∧
  Float.str (Sample.flt "123456789012") = "1.23456789012e+11" ∧
  Float.str (S754_zero true) = "-0.0" ∧ Float.str S754_nan = "nan".
Proof. by vm_compute. Qed.

(** The spec's first scenario: 3.5 + 2.25 in the clear. *)
Example get_expected_result_examples :
  get_expected_result (Sample.flt "3.5") (Sample.flt "2.25") "+" = Sample.flt "5.75" ∧
  get_expected_result (Sample.flt "3.5") (Sample.flt "2.25") "+*" = Sample.flt "5.75" ∧
  get_expected_result (Sample.flt "3.5") (Sample.flt "2.25") "x*" = Sample.flt "7.875".
Proof. by vm_compute. Qed.

End Examples.

(** ** Claims about the framing *)

Import Py Framing StrFacts IntFacts FramingFacts.

(** C1. Framing round trip: when the bytes of [frame P] (decimal length,
    CR LF, payload) arrive in any number of pieces, also with the length
    header cut anywhere, reading one frame gives back exactly [P]. The
    reader stops with the chunk that completes the frame; the only chunks
    it can leave behind are empty ones. *)
Theorem frame_roundtrip (P : string) (chunks : list string) (rest : list recv_result) :
  join chunks = frame P →
  ∃ used leftover,
    chunks = used ++ leftover ∧ Forall (λ s, s = "") leftover ∧
    read_frame ((RecvData <$> chunks) ++ rest)
    = (Val P, (RecvData <$> leftover) ++ rest).
Proof.
  intros Hjoin.
  destruct (recv_loop_frame P rest chunks "" Hjoin)
    as (used & leftover & Hchunks & Hempty & Hloop).
  exists used, leftover. split_and!; [done..|].
  unfold read_frame. change (if contains CRLF "" then _ else _) with 1 in Hloop.
  rewrite Hloop. unfold split1. by rewrite partition_frame.
Qed.

Lemma frame_roundtrip_witness :
  join ["5"; String CR ""; String LF "he"; "llo"] = frame "hello" ∧
  ∃ used leftover,
    ["5"; String CR ""; String LF "he"; "llo"] = used ++ leftover ∧
    Forall (λ s, s = "") leftover ∧
    read_frame ((RecvData <$> ["5"; String CR ""; String LF "he"; "llo"]) ++ [])
    = (Val "hello", (RecvData <$> leftover) ++ []).
Proof.
  split; [reflexivity|].
  apply (frame_roundtrip "hello" ["5"; String CR ""; String LF "he"; "llo"] []).
  reflexivity.
Defined.

(** C3. Every message that goes out is written as one frame: the decimal
    digits of the byte length of the serialized body, then CR LF, then the
    body and nothing after it. *)
Theorem send_message_frame (E : env) (message : gmap string pyval) (w w' : world) :
  send_message E message w = (Val (), w') →
  ∃ hdr,
    outgoing w' = outgoing w ++ [hdr +:+ CRLF +:+ json_dumps E (PDict message)] ∧
    hdr ≠ "" ∧ forallb is_digit hdr = true ∧
    int hdr = Some (Z.of_nat (String.length (json_dumps E (PDict message)))).
Proof.
  unfold send_message, sendall, frame.
  set (body := json_dumps E (PDict message)). intros Hsend.
  exists (str (len body)).
  assert (outgoing w' = outgoing w ++ [str (len body) +:+ CRLF +:+ body]) as ->.
  { revert Hsend. by destruct (sendall_errors w) as [|[errno|] errors]; intros [= <-]. }
  split_and!; [done| |apply str_digits, len_nonneg|apply int_str, len_nonneg].
  pose proof (int_str (len body) (len_nonneg body)) as Hint.
  intros Hnil. by rewrite Hnil in Hint.
Qed.

Lemma send_message_frame_witness :
  send_message Sample.E Sample.terminate Sample.start
  = (Val (), Sample.start_sent) ∧
  ∃ hdr,
    outgoing Sample.start_sent
    = outgoing Sample.start ++
        [hdr +:+ CRLF +:+ json_dumps Sample.E (PDict Sample.terminate)] ∧
    hdr ≠ "" ∧ forallb is_digit hdr = true ∧
    int hdr = Some (Z.of_nat (String.length
                                (json_dumps Sample.E (PDict Sample.terminate)))).
Proof.
  split; [by vm_compute|].
  apply (send_message_frame Sample.E Sample.terminate Sample.start).
  by vm_compute.
Defined.

(** C4, as the claim states it, fails: when the bytes of the next frame
    arrive in the same read, they all end up in the payload of the
    current one. *)
Lemma read_frame_takes_next_frame :
  read_frame [RecvData (frame "a" +:+ frame "b")] = (Val ("a" +:+ frame "b"), []) ∧
  int "1" = Some 1 ∧ len ("a" +:+ frame "b") = 5.
Proof. by vm_compute. Qed.

(** C4, amended. When a frame has been read, the reader has used a run of
    [recv] results that all carried data; the payload is everything they
    delivered after the first CR LF, the header before that CR LF is a
    decimal number, and the payload has at least that many bytes (exactly
    that many when the last read ended with the frame). The reader stopped
    as early as it could: before the last read the buffer was shorter than
    the size it was waiting for. *)
Theorem read_frame_payload (incoming rest : list recv_result) (payload : string) :
  read_frame incoming = (Val payload, rest) →
  ∃ chunks hdr n,
    incoming = (RecvData <$> chunks) ++ rest ∧
    partition CRLF (join chunks) = Some (hdr, payload) ∧
    join chunks = hdr +:+ CRLF +:+ payload ∧
    int hdr = Some n ∧
    n ≤ len payload ∧
    (len (join chunks) = len hdr + 2 + n → len payload = n) ∧
    (∀ chunks' c, chunks = chunks' ++ [c] →
       ∃ s, expected_size (join chunks') = Val s ∧ len (join chunks') < s).
Proof.
  unfold read_frame.
  destruct (recv_loop incoming "" 1) as [[response| |] rest'] eqn:Hloop; try done.
  destruct (recv_loop_Val incoming "" 1 response rest' eq_refl Hloop)
    as (chunks & -> & -> & (size & Hsize & Hle) & Hlast).
  rewrite app_nil_l in *. unfold split1.
  unfold expected_size, contains, split1 in Hsize.
  destruct (partition CRLF (join chunks)) as [[hdr tail]|] eqn:Hpart.
  2:{ injection Hsize as <-. lia. }
  simpl. intros [= <- <-].
  destruct (int hdr) as [n|] eqn:Hint; [|done]. injection Hsize as <-.
  pose proof (partition_Some _ _ _ _ Hpart) as Heq.
  assert (len (join chunks) = len hdr + 2 + len tail) as Hlen.
  { rewrite Heq, !len_app, len_CRLF. lia. }
  exists chunks, hdr, n. split_and!; try done; lia.
Qed.

Lemma read_frame_payload_witness :
  read_frame [RecvData "2"; RecvData (CRLF +:+ "o"); RecvData "k!"; RecvData "z"]
  = (Val "ok!", [RecvData "z"]) ∧
  ∃ chunks hdr n,
    [RecvData "2"; RecvData (CRLF +:+ "o"); RecvData "k!"; RecvData "z"]
    = (RecvData <$> chunks) ++ [RecvData "z"] ∧
    partition CRLF (join chunks) = Some (hdr, "ok!") ∧
    join chunks = hdr +:+ CRLF +:+ "ok!" ∧
    int hdr = Some n ∧
    n ≤ len "ok!" ∧
    (len (join chunks) = len hdr + 2 + n → len "ok!" = n) ∧
    (∀ chunks' c, chunks = chunks' ++ [c] →
       ∃ s, expected_size (join chunks') = Val s ∧ len (join chunks') < s).
Proof.
  split; [reflexivity|].
  apply (read_frame_payload
           [RecvData "2"; RecvData (CRLF +:+ "o"); RecvData "k!"; RecvData "z"]).
  reflexivity.
Defined.




(** ** The tallies *)

Module TallyFacts.

Lemma counter_set (c : gmap string (list Z)) (w : world) (key : string) (i : nat) :
  counter (set_correctness c w) key i = default 0 (c !! key ≫= (.!! i)).
Proof. reflexivity. Qed.

(** The operations form a list without repetition: a position determines
    the label and the label the position. *)
Lemma find_operations (op : string) (i : nat) :
  Value.find op operations = Some i ↔ operations !! i = Some op.
Proof.
  unfold operations. cbn [Value.find]. split.
  - destruct (String.eqb_spec "x*" op) as [<-|]; [by intros [= <-]|].
    destruct (String.eqb_spec "+" op) as [<-|]; [by intros [= <-]|].
    destruct (String.eqb_spec "+*" op) as [<-|]; [by intros [= <-]|done].
  - by destruct i as [|[|[|i]]]; simpl; intros [= <-].
Qed.

Lemma index_lt (op : pyval) (idx : nat) :
  Value.index operations op = Val idx → (idx < 3)%nat.
Proof.
  destruct op as [| | | |s| | |]; try done. unfold Value.index, Value.of_option.
  destruct (Value.find s operations) as [i|] eqn:E; [|done].
  intros [= <-]. apply find_operations, lookup_lt_Some in E. exact E.
Qed.

(** What [tally] does when it returns. *)
Lemma tally_Val (key : string) (response : pyval) (w w' : world) :
  tally key response w = (Val (), w') →
  ∃ op idx old,
    Value.getitem response "operation" = Val op ∧
    Value.index operations op = Val idx ∧
    default counters0 (correctness w !! key) !! idx = Some old ∧
    w' = set_correctness
           (<[key := <[idx := old + 1]> (default counters0 (correctness w !! key))]>
              (correctness w)) w.
Proof.
  unfold tally, mbind, M_bind, get_correctness, put_correctness, lift, mret, M_ret.
  destruct (correctness w !! key) as [v|] eqn:Hkey; simpl.
  - rewrite Hkey. simpl.
    destruct (Value.getitem response "operation") as [op| |] eqn:Hop; try done.
    destruct (Value.index operations op) as [idx| |] eqn:Hidx; try done.
    destruct (v !! idx) as [old|] eqn:Hold; [|done]. simpl.
    intros [= <-]. by exists op, idx, old.
  - rewrite lookup_insert_eq. simpl.
    destruct (Value.getitem response "operation") as [op| |] eqn:Hop; try done.
    destruct (Value.index operations op) as [idx| |] eqn:Hidx; try done.
    destruct (counters0 !! idx) as [old|] eqn:Hold; [|done]. simpl.
    intros [= <-]. exists op, idx, old. split_and!; try done.
    unfold set_correctness. simpl. by rewrite insert_insert_eq.
Qed.

(** [tally] returns whenever the response names one of the operations. *)
Lemma tally_total (key : string) (response op : pyval) (idx : nat) (w : world) :
  six_slots (correctness w) →
  Value.getitem response "operation" = Val op →
  Value.index operations op = Val idx →
  ∃ w', tally key response w = (Val (), w').
Proof.
  intros Hsix Hop Hidx. pose proof (index_lt _ _ Hidx) as Hlt.
  unfold tally, mbind, M_bind, get_correctness, put_correctness, lift, mret, M_ret.
  destruct (correctness w !! key) as [v|] eqn:Hkey; simpl.
  - rewrite Hkey. simpl.
    rewrite Hop, Hidx. simpl.
    destruct (lookup_lt_is_Some_2 v idx) as [old ->]; [rewrite (Hsix _ _ Hkey); lia|].
    by eexists.
  - rewrite lookup_insert_eq. simpl.
    rewrite Hop, Hidx. simpl.
    destruct (lookup_lt_is_Some_2 counters0 idx) as [old ->]; [simpl; lia|].
    by eexists.
Qed.

Lemma getitem_exn (v : pyval) (k : string) (r : result pyval) :
  Value.getitem v k = r → r ≠ Blocked ∧ ∀ errno, r ≠ Raise (Py.SocketError errno).
Proof.
  intros <-. destruct v as [| | | | | | |d]; simpl; try done.
  by destruct (d !! k).
Qed.

Lemma index_exn (v : pyval) (r : result nat) :
  Value.index operations v = r → r ≠ Blocked ∧ ∀ errno, r ≠ Raise (Py.SocketError errno).
Proof.
  intros <-. destruct v as [| | | |s| | |]; try done.
  unfold Value.index. by destruct (Value.find s operations).
Qed.

(** Whatever way [tally] ends, it leaves the socket alone and it does not
    raise [socket.error]. When it returns it has added one at a position
    below three; when it raises, the most it has done is create the vector
    for [key]. *)
Lemma tally_any (key : string) (response : pyval) (w w' : world) (r : result ()) :
  tally key response w = (r, w') →
  (∀ errno, r ≠ Raise (Py.SocketError errno)) ∧
  incoming w' = incoming w ∧ outgoing w' = outgoing w ∧
  sendall_errors w' = sendall_errors w ∧ closed w' = closed w ∧
  match r with
  | Val _ =>
      ∃ idx old, (idx < 3)%nat ∧
        default counters0 (correctness w !! key) !! idx = Some old ∧
        correctness w' =
          <[key := <[idx := old + 1]> (default counters0 (correctness w !! key))]>
            (correctness w)
  | _ =>
      correctness w' = correctness w ∨
      correctness w' = <[key := counters0]> (correctness w) ∧
      correctness w !! key = None
  end.
Proof.
  unfold tally, mbind, M_bind, get_correctness, put_correctness, lift, mret, M_ret.
  destruct (correctness w !! key) as [v|] eqn:Hkey; simpl.
  - rewrite Hkey. simpl.
    destruct (Value.getitem response "operation") as [op|e|] eqn:Hop;
      apply getitem_exn in Hop as [??]; [|intros [= <- <-]; naive_solver|done].
    destruct (Value.index operations op) as [idx|e|] eqn:Hidx;
      [|apply index_exn in Hidx as [??]; intros [= <- <-]; naive_solver
       |by apply index_exn in Hidx as [??]].
    destruct (v !! idx) as [old|] eqn:Hold; simpl; intros [= <- <-];
      [|naive_solver].
    split_and!; try done. exists idx, old.
    split_and!; try done. by eapply index_lt.
  - rewrite lookup_insert_eq. simpl.
    destruct (Value.getitem response "operation") as [op|e|] eqn:Hop;
      apply getitem_exn in Hop as [??]; [|intros [= <- <-]; naive_solver|done].
    destruct (Value.index operations op) as [idx|e|] eqn:Hidx;
      [|apply index_exn in Hidx as [??]; intros [= <- <-]; naive_solver
       |by apply index_exn in Hidx as [??]].
    destruct (counters0 !! idx) as [old|] eqn:Hold; simpl; intros [= <- <-];
      [|naive_solver].
    split_and!; try done. exists idx, old.
    split_and!; try done; [by eapply index_lt|].
    simpl. by rewrite insert_insert_eq.
Qed.

Lemma counters0_lookup (j : nat) : default 0 (counters0 !! j) = 0.
Proof. by destruct j as [|[|[|[|[|[|j]]]]]]. Qed.

Lemma counter_default (w : world) (key : string) (j : nat) :
  default 0 (default counters0 (correctness w !! key) !! j) = counter w key j.
Proof.
  unfold counter. destruct (correctness w !! key); [done|]. apply counters0_lookup.
Qed.

Lemma counter_correctness (w w' : world) (key : string) (j : nat) :
  correctness w' = correctness w → counter w' key j = counter w key j.
Proof. unfold counter. by intros ->. Qed.

(** What a returning [tally] does to the counters: one more at [key] and
    the position of the operation in the response, no change elsewhere. *)
Lemma tally_counter (key : string) (response : pyval) (w w' : world) :
  tally key response w = (Val (), w') →
  ∃ op idx,
    Value.getitem response "operation" = Val op ∧
    Value.index operations op = Val idx ∧
    ∀ k j, counter w' k j
           = counter w k j + (if bool_decide (k = key ∧ j = idx) then 1 else 0).
Proof.
  intros (op & idx & old & Hop & Hidx & Hold & ->)%tally_Val.
  exists op, idx. split_and!; [done..|]. intros k j. rewrite counter_set.
  destruct (decide (k = key)) as [->|Hk].
  - rewrite lookup_insert_eq. simpl. destruct (decide (j = idx)) as [->|Hj].
    + rewrite bool_decide_eq_true_2 by done.
      rewrite list_lookup_insert_eq by by eapply lookup_lt_Some.
      rewrite <- counter_default, Hold. done.
    + rewrite bool_decide_eq_false_2 by (by intros [_ ?]).
      rewrite list_lookup_insert_ne by done. rewrite counter_default. lia.
  - rewrite lookup_insert_ne by done.
    rewrite bool_decide_eq_false_2 by (by intros [? _]). unfold counter. lia.
Qed.

Lemma tidy_empty : tidy ∅.
Proof. intros key v. by rewrite lookup_empty. Qed.

Lemma tidy_insert (c : gmap string (list Z)) (key : string) (v : list Z) :
  tidy c → key = "wrong" ∨ key = "correct" → tidy_vector v → tidy (<[key := v]> c).
Proof.
  intros Hc Hkey Hv k u. destruct (decide (key = k)) as [<-|Hne].
  - rewrite lookup_insert_eq. by intros [= <-].
  - rewrite lookup_insert_ne by done. apply Hc.
Qed.

Lemma tidy_vector_bump (v : list Z) (idx : nat) (x : Z) :
  (idx < 3)%nat → tidy_vector v → tidy_vector (<[idx := x]> v).
Proof.
  intros Hidx (Hlen & H3 & H4 & H5). unfold tidy_vector.
  rewrite length_insert, !list_lookup_insert_ne by lia. done.
Qed.

Lemma tally_tidy (key : string) (response : pyval) (w w' : world) (r : result ()) :
  key = "wrong" ∨ key = "correct" →
  tidy (correctness w) → tally key response w = (r, w') → tidy (correctness w').
Proof.
  intros Hkey Htidy (_ & _ & _ & _ & _ & Hc)%tally_any.
  assert (tidy_vector (default counters0 (correctness w !! key))) as Hv.
  { destruct (correctness w !! key) as [v|] eqn:E; [by eapply Htidy|].
    by repeat split. }
  destruct r as [[]|e|].
  - destruct Hc as (idx & old & Hidx & _ & ->).
    apply tidy_insert; [done..|]. by apply tidy_vector_bump.
  - destruct Hc as [->|[-> _]]; [done|]. apply tidy_insert; [done..|]. by repeat split.
  - destruct Hc as [->|[-> _]]; [done|]. apply tidy_insert; [done..|]. by repeat split.
Qed.

End TallyFacts.

(** ** The rounds of the benchmark *)

Module ClientFacts.
Import TallyFacts.

Section Facts.

Variable E : env.

Lemma decode_inv (mode : string) (response : pyval) (w w1 : world)
    (r : result (spec_float * pyval)) :
  decode E mode response w = (r, w1) →
  w1 = w ∧
  ∀ result operation, r = Val (result, operation) →
    Value.getitem response "operation" = Val operation.
Proof.
  unfold decode, mbind, M_bind, lift, mret, M_ret.
  destruct (String.eqb mode "encrypted");
    repeat match goal with
    | |- context [match ?x with Val _ => _ | Raise _ => _ | Blocked => _ end] =>
        destruct x eqn:?
    end; intros [= <- <-]; split; try done; congruence.
Qed.

Lemma sendall_keeps (data : string) (w w' : world) (r : result ()) :
  sendall data w = (r, w') → correctness w' = correctness w.
Proof.
  unfold sendall.
  by destruct (sendall_errors w) as [|[errno|] errors]; intros [= <- <-].
Qed.

Lemma recv_response_keeps (w w' : world) (r : result string) :
  recv_response w = (r, w') → correctness w' = correctness w.
Proof.
  unfold recv_response. destruct (Framing.recv_loop _ _ _). by intros [= <- <-].
Qed.

(** A round either stops before the tallies are touched, or it gets as far
    as [record_outcome] with the response it has decoded. *)
Lemma round_inv (mode : string) (i : nat) (w w' : world) (r : result round_log) :
  round E mode i w = (r, w') →
  (correctness w' = correctness w ∧ ∀ log, r ≠ Val log) ∨
  ∃ w1 response result operation r0,
    correctness w1 = correctness w ∧
    Value.getitem response "operation" = Val operation ∧
    record_outcome result (expected (draws E mode i)) response w1 = (r0, w') ∧
    match r0 with
    | Val _ =>
        r = Val {| log_mode := mode;
                   issued := random_choice operations (pick (draws E mode i));
                   ending := Recorded operation
                               (negb (Float.ne result (expected (draws E mode i)))) |}
    | Raise e => r = Raise e
    | Blocked => r = Blocked
    end.
Proof.
  unfold round, generate_random_request. cbv zeta. fold (expected (draws E mode i)).
  match goal with |- context [send_message _ ?b] => generalize b end.
  intros body. unfold send_message, mbind, M_bind, lift.
  destruct (sendall _ w) as [[[]|e|] w0] eqn:Hsend; apply sendall_keeps in Hsend;
    [|intros [= <- <-]; by left..].
  destruct (recv_response w0) as [[buffer|e|] w1] eqn:Hrecv;
    apply recv_response_keeps in Hrecv;
    [|intros [= <- <-]; left; split; [congruence|done]..].
  destruct (Py.split1 Py.CRLF buffer !! 1%nat) as [payload|]; simpl;
    [|intros [= <- <-]; left; split; [congruence|done]].
  destruct (json_loads E payload) as [response|]; simpl;
    [|intros [= <- <-]; left; split; [congruence|done]].
  destruct (decode E mode response w1) as [[[result operation]|e|] w2] eqn:Hdec;
    apply decode_inv in Hdec as [-> Hop];
    [|intros [= <- <-]; left; split; [congruence|done]..].
  destruct (record_outcome result (expected (draws E mode i)) response w1)
    as [r0 w3] eqn:Hrec.
  intros Hr. right. exists w1, response, result, operation, r0.
  split_and!; [congruence|by apply (Hop result)| |].
  - destruct r0; by injection Hr as <- <-.
  - destruct r0; by injection Hr as <- <-.
Qed.

Lemma record_outcome_tally (result expected_result : spec_float) (response : pyval) :
  ∃ key, (key = "wrong" ∨ key = "correct") ∧
    record_outcome result expected_result response = tally key response.
Proof. unfold record_outcome. destruct (Float.ne _ _); eauto. Qed.

Lemma round_tidy (mode : string) (i : nat) (w w' : world) (r : result round_log) :
  tidy (correctness w) → round E mode i w = (r, w') → tidy (correctness w').
Proof.
  intros Htidy [[-> _]|(w1 & response & result & op & r0 & Hw1 & _ & Hrec & _)]%round_inv;
    [done|].
  destruct (record_outcome_tally result (expected (draws E mode i)) response)
    as (key & Hkey & Heq).
  rewrite Heq in Hrec. eapply tally_tidy; [done| |done]. by rewrite Hw1.
Qed.

(** A [socket.error] never comes from the tallying. *)
Lemma round_socket_error (mode : string) (i : nat) (w w' : world) (errno : Z) :
  round E mode i w = (Raise (Py.SocketError errno), w') →
  correctness w' = correctness w.
Proof.
  intros [[? _]|(w1 & response & result & op & r0 & _ & _ & Hrec & Hr)]%round_inv;
    [done|].
  destruct (record_outcome_tally result (expected (draws E mode i)) response)
    as (key & _ & Heq).
  rewrite Heq in Hrec. apply tally_any in Hrec as [Hno _].
  destruct r0 as [[]|e|]; try done. injection Hr as <-. by destruct (Hno errno).
Qed.

Lemma send_message_keeps (message : gmap string pyval) (w w' : world) (r : result ()) :
  send_message E message w = (r, w') → correctness w' = correctness w.
Proof. apply sendall_keeps. Qed.

Lemma finish_keeps (plot : bool) (w w' : world) (r : result ()) :
  finish E plot w = (r, w') → correctness w' = correctness w.
Proof.
  unfold finish, mbind, M_bind, lift, sock_close.
  destruct (String.eqb "unencrypted" "unencrypted" && plot).
  - destruct (print_graph E); simpl; [by intros [= <- <-]|].
    destruct (send_message E _ w) as [[[]|e|] w1] eqn:Hsend;
      apply send_message_keeps in Hsend; by intros [= <- <-].
  - destruct (send_message E _ w) as [[[]|e|] w1] eqn:Hsend;
      apply send_message_keeps in Hsend; by intros [= <- <-].
Qed.

Lemma reachable_tidy (w : world) : reachable E w → tidy (correctness w).
Proof.
  induction 1 as [w Hw|mode i w w' r _ IH Hround|plot w w' r _ IH Hfin|w _ IH].
  - rewrite Hw. apply tidy_empty.
  - by eapply round_tidy.
  - by rewrite (finish_keeps _ _ _ _ Hfin).
  - done.
Qed.

Lemma for_xrange_reachable (mode : string) (range : list nat) :
  ∀ w st logs w', reachable E w →
    for_xrange E mode range w = (st, logs, w') → reachable E w'.
Proof.
  induction range as [|i range IH]; intros w st logs w' Hw; simpl.
  - by intros [= _ _ <-].
  - destruct (round E mode i w) as [[log|e|] w1] eqn:Hround;
      pose proof (reachable_round E _ _ _ _ _ Hw Hround) as Hw1.
    + destruct (for_xrange E mode range w1) as [[st1 logs1] w2] eqn:Hrest.
      intros [= _ _ <-]. by eapply IH.
    + destruct e as [errno| | | | |]; try by intros [= _ _ <-].
      destruct ((errno =? EAGAIN) || (errno =? EWOULDBLOCK)).
      * destruct (for_xrange E mode range w1) as [[st1 logs1] w2] eqn:Hrest.
        intros [= _ _ <-]. by eapply IH.
      * intros [= _ _ <-]. by apply reachable_close.
    + by intros [= _ _ <-].
Qed.

Lemma for_modes_reachable (modes : list string) (nr_ops : Z) :
  ∀ w st logs w', reachable E w →
    for_modes E modes nr_ops w = (st, logs, w') → reachable E w'.
Proof.
  induction modes as [|mode modes IH]; intros w st logs w' Hw; simpl.
  - by intros [= _ _ <-].
  - destruct (for_xrange E mode (seq 0 (Z.to_nat nr_ops)) w)
      as [[st1 logs1] w1] eqn:Hloop.
    apply for_xrange_reachable in Hloop; [|done].
    destruct st1; try by intros [= _ _ <-].
    destruct (for_modes E modes nr_ops w1) as [[st2 logs2] w2] eqn:Hrest.
    intros [= _ _ <-]. by eapply IH.
Qed.

(** The state in which a run ends, however it ends, is a reachable one. *)
Lemma main_reachable (plot : bool) (nr_ops : Z) (w w' : world) (st : status)
    (logs : list round_log) :
  correctness w = ∅ → main E plot nr_ops w = (st, logs, w') → reachable E w'.
Proof.
  intros Hw%(reachable_start E). unfold main.
  destruct (for_modes E _ nr_ops w) as [[st1 logs1] w1] eqn:Hloops.
  apply for_modes_reachable in Hloops; [|done].
  destruct st1; try by intros [= _ _ <-].
  destruct (finish E plot w1) as [[[]|e|] w2] eqn:Hfin;
    intros [= _ _ <-]; by eapply reachable_finish.
Qed.

(** A completed round whose response names the operation asked for adds
    one to the total of that operation and nothing to the others. *)
Lemma round_count (mode : string) (i : nat) (w w' : world) (log : round_log) :
  round E mode i w = (Val log, w') → echoes_issued log →
  ∀ j op, operations !! j = Some op →
    total w' j = total w j + (if String.eqb (issued log) op then 1 else 0).
Proof.
  intros [[_ Hne]|(w1 & response & result & operation & r0 & Hw1 & Hop & Hrec & Hr)]%round_inv;
    [by destruct (Hne log)|].
  destruct r0 as [[]|e|]; try done. injection Hr as ->.
  intros [b Hecho]. simpl in Hecho. injection Hecho as -> _.
  destruct (record_outcome_tally result (expected (draws E mode i)) response)
    as (key & Hkey & Heq).
  rewrite Heq in Hrec.
  apply tally_counter in Hrec as (op' & idx & Hop' & Hidx & Hcount).
  rewrite Hop in Hop'. injection Hop' as <-.
  unfold Value.index, Value.of_option in Hidx.
  destruct (Value.find _ operations) as [idx'|] eqn:Hfind; [|done].
  injection Hidx as ->. simpl.
  intros j op Hj. unfold total. rewrite !Hcount.
  rewrite !(counter_correctness w1 w) by done.
  assert (bool_decide (j = idx) = String.eqb (random_choice operations
            (pick (draws E mode i))) op) as Hsame.
  { apply find_operations in Hfind.
    destruct (String.eqb_spec (random_choice operations (pick (draws E mode i))) op)
      as [Heq'|Hne'].
    - apply bool_decide_eq_true_2. rewrite Heq' in Hfind.
      apply find_operations in Hj, Hfind. congruence.
    - apply bool_decide_eq_false_2. intros ->. congruence. }
  rewrite <- Hsame.
  destruct Hkey as [->| ->]; repeat case_bool_decide; try lia;
    exfalso; intuition discriminate.
Qed.

Lemma for_xrange_count (mode : string) (range : list nat) :
  ∀ w logs w',
    for_xrange E mode range w = (Finished, logs, w') →
    Forall echoes_issued logs →
    ∀ j op, operations !! j = Some op →
      total w' j = total w j + issued_count op logs.
Proof.
  induction range as [|i range IH]; intros w logs w'; simpl.
  - intros [= <- <-] _ j op _. simpl. lia.
  - destruct (round E mode i w) as [[log|e|] w1] eqn:Hround.
    + destruct (for_xrange E mode range w1) as [[st1 logs1] w2] eqn:Hrest.
      intros [= -> <- <-] [Hlog Hlogs]%Forall_cons j op Hj. simpl.
      rewrite (IH _ _ _ Hrest Hlogs j op Hj).
      rewrite (round_count _ _ _ _ _ Hround Hlog j op Hj). lia.
    + destruct e as [errno| | | | |]; try done.
      destruct ((errno =? EAGAIN) || (errno =? EWOULDBLOCK)); [|done].
      destruct (for_xrange E mode range w1) as [[st1 logs1] w2] eqn:Hrest.
      intros [= -> <- <-] [[b Hlog] _]%Forall_cons. done.
    + done.
Qed.

Lemma for_modes_count (modes : list string) (nr_ops : Z) :
  ∀ w logs w',
    for_modes E modes nr_ops w = (Finished, logs, w') →
    Forall echoes_issued logs →
    ∀ j op, operations !! j = Some op →
      total w' j = total w j + issued_count op logs.
Proof.
  induction modes as [|mode modes IH]; intros w logs w'; simpl.
  - intros [= <- <-] _ j op _. simpl. lia.
  - destruct (for_xrange E mode (seq 0 (Z.to_nat nr_ops)) w)
      as [[st1 logs1] w1] eqn:Hloop.
    destruct st1; try done.
    destruct (for_modes E modes nr_ops w1) as [[st2 logs2] w2] eqn:Hrest.
    intros [= -> <- <-] [Hlogs1 Hlogs2]%Forall_app j op Hj.
    rewrite (IH _ _ _ Hrest Hlogs2 j op Hj).
    rewrite (for_xrange_count _ _ _ _ _ Hloop Hlogs1 j op Hj).
    assert (∀ l1 l2, issued_count op (l1 ++ l2)
                     = issued_count op l1 + issued_count op l2) as Happ.
    { induction l1 as [|l l1 IH1]; intros l2; simpl; [done|]. rewrite IH1. lia. }
    rewrite Happ. lia.
Qed.

End Facts.

End ClientFacts.

(** ** Claims about the requests and the tallies *)

Import TallyFacts ClientFacts.

Lemma random_choice_operations (k : nat) :
  random_choice operations k = "x*" ∨ random_choice operations k = "+" ∨
  random_choice operations k = "+*".
Proof.
  unfold random_choice, operations. simpl length.
  pose proof (Nat.mod_upper_bound k 3) as Hlt.
  destruct (k mod 3)%nat as [|[|[|m]]]; simpl; auto. lia.
Qed.

(** C2. In encrypted mode operand 1 of a request is the pair of the
    ciphertext in decimal and the exponent; operand 2 is such a pair
    exactly when the operation is ['+'], and for ['x*'] and ['+*'] it is
    the plaintext string. In unencrypted mode both operands are plaintext
    strings. The operation is always one of the three. *)
Theorem request_operands (E : env) (mode : string) (d : draw) :
  let message := (generate_random_request E mode d).2 in
  let operation := random_choice operations (pick d) in
  message !! "operation" = Some (PStr operation) ∧
  (operation = "x*" ∨ operation = "+" ∨ operation = "+*") ∧
  (mode = "encrypted" →
     message !! "operand_1" = Some (encrypted_operand E (r_1 d) (uniform_1 d)) ∧
     (is_pair (message !! "operand_2") ↔ operation = "+") ∧
     (operation = "+" →
        message !! "operand_2" = Some (encrypted_operand E (r_2 d) (uniform_2 d))) ∧
     (operation = "x*" ∨ operation = "+*" →
        message !! "operand_2" = Some (plaintext_operand (uniform_2 d)))) ∧
  (mode = "unencrypted" →
     message !! "operand_1" = Some (plaintext_operand (uniform_1 d)) ∧
     message !! "operand_2" = Some (plaintext_operand (uniform_2 d))).
Proof.
  unfold generate_random_request. cbv zeta. simpl snd.
  pose proof (random_choice_operations (pick d)) as Hop.
  split_and!.
  - destruct (String.eqb mode "encrypted");
      [destruct (String.eqb (random_choice operations (pick d)) "+")|];
      by rewrite !lookup_insert_ne, lookup_insert_eq by done.
  - done.
  - intros ->. rewrite String.eqb_refl.
    destruct (String.eqb_spec (random_choice operations (pick d)) "+") as [Heq|Hne].
    + rewrite lookup_insert_ne, !lookup_insert_eq by done.
      split_and!; try done; [|intros [E'|E']; by rewrite E' in Heq].
      split; [done|]. intros _. by eexists _, _.
    + rewrite lookup_insert_ne, !lookup_insert_eq by done.
      split_and!; try done. split; [|done]. by intros (c & e & ?).
  - intros ->. simpl. by rewrite lookup_insert_ne, !lookup_insert_eq by done.
Qed.

(** C6 does not hold of the script: [str] keeps 12 significant digits of
    a float. [random.uniform(0.0, 100.0)] can return 50.000000000000014
    (two floats above 50.0); [str] writes it as ['50.0'], and ['50.0']
    reads back as 50.0, another number. *)
Theorem plaintext_operand_loses_digits :
  let x := Sample.lossy_operand in
  let d := {| pick := 0; uniform_1 := x; uniform_2 := x; r_1 := 0; r_2 := 0 |} in
  let message := (generate_random_request Sample.E "unencrypted" d).2 in
  x = S754_finite false 7036874417766402 (-47) ∧
  message !! "operand_2" = Some (PStr "50.0") ∧
  Value.float (PStr "50.0") = Val (S754_finite false 7036874417766400 (-47)) ∧
  Float.ne (S754_finite false 7036874417766400 (-47)) x = true.
Proof. by vm_compute. Qed.

(** C7. The decoded result is compared with the expected one for equality
    of floats, and exactly one counter goes up by one: the one of
    ['correct'] when they are equal, of ['wrong'] when they are not, at the
    position that the operation named in the response has in [operations]. *)
Theorem record_outcome_counts (result expected_result : spec_float)
    (response operation : pyval) (idx : nat) (w : world) :
  six_slots (correctness w) →
  Value.getitem response "operation" = Val operation →
  Value.index operations operation = Val idx →
  let key := if SFeqb result expected_result then "correct" else "wrong" in
  ∃ w', record_outcome result expected_result response w = (Val (), w') ∧
    counter w' key idx = counter w key idx + 1 ∧
    ∀ k j, (k, j) ≠ (key, idx) → counter w' k j = counter w k j.
Proof.
  intros Hsix Hop Hidx key.
  assert (record_outcome result expected_result response = tally key response) as ->.
  { unfold record_outcome, Float.ne, key. by destruct (SFeqb _ _). }
  destruct (tally_total key response operation idx w Hsix Hop Hidx) as [w' Htally].
  exists w'. split; [done|].
  apply tally_counter in Htally as (op' & idx' & Hop' & Hidx' & Hcount).
  rewrite Hop in Hop'. injection Hop' as <-.
  rewrite Hidx in Hidx'. injection Hidx' as <-.
  split.
  - rewrite Hcount, bool_decide_eq_true_2 by done. done.
  - intros k j Hne. rewrite Hcount, bool_decide_eq_false_2; [lia|].
    intros [-> ->]. done.
Qed.

Lemma record_outcome_counts_witness :
  let response : pyval :=
    PDict (<["result" := PStr "7.875"]> (<["operation" := PStr "+*"]> ∅)) in
  six_slots (correctness Sample.start) ∧
  Value.getitem response "operation" = Val (PStr "+*") ∧
  Value.index operations (PStr "+*") = Val 2%nat ∧
  ∃ w', record_outcome (Sample.flt "7.875") (Sample.flt "7.5") response Sample.start
        = (Val (), w') ∧
    counter w' "wrong" 2 = counter Sample.start "wrong" 2 + 1 ∧
    ∀ k j, (k, j) ≠ ("wrong", 2%nat) → counter w' k j = counter Sample.start k j.
Proof.
  assert (six_slots (correctness Sample.start)) as Hsix by (by intros key v).
  split_and!; [exact Hsix|reflexivity|reflexivity|].
  exact (record_outcome_counts (Sample.flt "7.875") (Sample.flt "7.5")
           (PDict (<["result" := PStr "7.875"]> (<["operation" := PStr "+*"]> ∅)))
           (PStr "+*") 2 Sample.start Hsix eq_refl eq_refl).
Defined.

(** C8, as the claim states it, fails: the server answers a request for
    ['x*'] with a response that names ['+']; at the end of the run the
    counters of ['+'] add up to one although no ['+'] was requested, and
    those of ['x*'] to one although two were. *)
Lemma conservation_fails_on_wrong_echo :
  let '(st, logs, w) := main Sample.E false 1 Sample.wrong_echo in
  st = Finished ∧
  operations !! 1%nat = Some "+" ∧ total w 1 = 1 ∧ issued_count "+" logs = 0 ∧
  operations !! 0%nat = Some "x*" ∧ total w 0 = 1 ∧ issued_count "x*" logs = 2.
Proof. by vm_compute. Qed.

(** C8, amended. In a run that goes through to the end and in which every
    round is completed by a response that names the operation requested,
    the ['correct'] and ['wrong'] counters of every operation add up to
    the number of requests made for it. *)
Theorem tally_conservation (E : env) (plot : bool) (nr_ops : Z) (w w' : world)
    (logs : list round_log) (j : nat) (op : string) :
  correctness w = ∅ →
  main E plot nr_ops w = (Finished, logs, w') →
  Forall echoes_issued logs →
  operations !! j = Some op →
  counter w' "correct" j + counter w' "wrong" j = issued_count op logs.
Proof.
  intros Hw Hmain Hlogs Hj. unfold main in Hmain.
  destruct (for_modes E _ nr_ops w) as [[st1 logs1] w1] eqn:Hloops.
  destruct st1; try done.
  destruct (finish E plot w1) as [[[]|e|] w2] eqn:Hfin; try done.
  injection Hmain as <- <-.
  pose proof (for_modes_count E _ _ _ _ _ Hloops Hlogs j op Hj) as Hcount.
  unfold total in Hcount.
  rewrite !(counter_correctness w1 w2) by by eapply finish_keeps.
  rewrite Hcount. unfold counter. rewrite Hw, !lookup_empty. simpl. lia.
Qed.

Lemma tally_conservation_witness :
  let '(st, logs, w') := main Sample.E true 1 Sample.well_behaved in
  correctness Sample.well_behaved = ∅ ∧
  st = Finished ∧
  Forall echoes_issued logs ∧
  operations !! 0%nat = Some "x*" ∧
  counter w' "correct" 0 + counter w' "wrong" 0 = issued_count "x*" logs.
Proof.
  destruct (main Sample.E true 1 Sample.well_behaved) as [[st logs] w'] eqn:Hmain.
  assert (st = Finished) as -> by (by vm_compute in Hmain; injection Hmain as <- _ _).
  assert (Forall echoes_issued logs) as Hlogs.
  { vm_compute in Hmain. injection Hmain as <- _.
    repeat constructor; by eexists. }
  split_and!; [reflexivity|reflexivity|exact Hlogs|reflexivity|].
  exact (tally_conservation Sample.E true 1 Sample.well_behaved w' logs 0 "x*"
           eq_refl Hmain Hlogs eq_refl).
Defined.

(** C9, as the claim states it, fails: the [recv] of the first iteration
    raises [EAGAIN]; that iteration is over without a response having been
    read or tallied, and the loop goes on to the next one. The run makes
    its two iterations and completes one round. *)
Lemma would_block_skips_the_round :
  let '(st, logs, w) := main Sample.E false 1 Sample.would_block in
  st = Finished ∧
  ending <$> logs = [Skipped; Recorded (PStr "x*") true] ∧
  length (outgoing w) = 3%nat ∧
  total w 0 + total w 1 + total w 2 = 1.
Proof. by vm_compute. Qed.

(** C9, amended. When the body of an iteration raises [socket.error] the
    tallies are as they were before the iteration. With [EAGAIN] or
    [EWOULDBLOCK] the loop goes on with the next index and the round is
    not taken up again; with any other errno the socket is closed and the
    process exits with status 1. *)
Theorem socket_error_handling (E : env) (mode : string) (i : nat)
    (range : list nat) (w w' : world) (errno : Z) :
  round E mode i w = (Raise (SocketError errno), w') →
  correctness w' = correctness w ∧
  for_xrange E mode (i :: range) w =
    if (errno =? EAGAIN) || (errno =? EWOULDBLOCK) then
      let '(st, logs, w'') := for_xrange E mode range w' in
      (st, {| log_mode := mode;
              issued := random_choice operations (pick (draws E mode i));
              ending := Skipped |} :: logs, w'')
    else (Exited 1, [], close w').
Proof.
  intros Hround. split; [by eapply round_socket_error|].
  simpl. by rewrite Hround.
Qed.

Lemma socket_error_handling_witness :
  let w' := (round Sample.E "encrypted" 0 Sample.would_block).2 in
  round Sample.E "encrypted" 0 Sample.would_block = (Raise (SocketError 11), w') ∧
  correctness w' = correctness Sample.would_block ∧
  for_xrange Sample.E "encrypted" [0; 1]%nat Sample.would_block =
    if (11 =? EAGAIN) || (11 =? EWOULDBLOCK) then
      let '(st, logs, w'') := for_xrange Sample.E "encrypted" [1%nat] w' in
      (st, {| log_mode := "encrypted";
              issued := random_choice operations
                          (pick (draws Sample.E "encrypted" 0));
              ending := Skipped |} :: logs, w'')
    else (Exited 1, [], close w').
Proof.
  split; [by vm_compute|].
  apply (socket_error_handling Sample.E "encrypted" 0 [1%nat] Sample.would_block).
  by vm_compute.
Defined.

(** C10. In every state the script can reach, ['wrong'] and ['correct']
    are the only tally vectors, each of them has six slots, and the slots
    3, 4 and 5 hold zero: only the slots 0, 1 and 2 ever count. *)
Theorem unused_slots_stay_zero (E : env) (w : world) (key : string) (v : list Z) :
  reachable E w →
  correctness w !! key = Some v →
  (key = "wrong" ∨ key = "correct") ∧
  length v = 6%nat ∧
  v !! 3%nat = Some 0 ∧ v !! 4%nat = Some 0 ∧ v !! 5%nat = Some 0.
Proof. intros Hw%reachable_tidy Hv. exact (Hw key v Hv). Qed.

Lemma unused_slots_stay_zero_witness :
  let w := (round Sample.E "encrypted" 0 Sample.well_behaved).2 in
  reachable Sample.E w ∧
  correctness w !! "correct" = Some [1; 0; 0; 0; 0; 0] ∧
  ("correct" = "wrong" ∨ "correct" = "correct") ∧
  length [1; 0; 0; 0; 0; 0] = 6%nat ∧
  [1; 0; 0; 0; 0; 0] !! 3%nat = Some 0 ∧ [1; 0; 0; 0; 0; 0] !! 4%nat = Some 0 ∧
  [1; 0; 0; 0; 0; 0] !! 5%nat = Some 0.
Proof.
  assert (reachable Sample.E (round Sample.E "encrypted" 0 Sample.well_behaved).2)
    as Hreach.
  { apply (reachable_round Sample.E "encrypted" 0 Sample.well_behaved _
             (round Sample.E "encrypted" 0 Sample.well_behaved).1).
    - by apply reachable_start.
    - by destruct (round Sample.E "encrypted" 0 Sample.well_behaved). }
  split; [exact Hreach|]. split; [by vm_compute|].
  apply (unused_slots_stay_zero Sample.E _ "correct" [1; 0; 0; 0; 0; 0] Hreach).
  by vm_compute.
Defined.

(** * More about the script *)

(** ** Frames on the stream *)

Module StreamFacts.
Import Py Framing StrFacts IntFacts FramingFacts.

Lemma app_inj_length (P Q t u : string) :
  String.length P = String.length Q → P +:+ t = Q +:+ u → P = Q ∧ t = u.
Proof.
  revert Q. induction P as [|c P IH]; intros [|c' Q]; try done.
  rewrite !app_cons. intros [= Hlen] [= -> Heq].
  by destruct (IH _ Hlen Heq) as [-> ->].
Qed.

Lemma str_inj (m k : Z) : 0 ≤ m → 0 ≤ k → str m = str k → m = k.
Proof.
  intros Hm Hk Heq. pose proof (int_str m Hm) as H1.
  rewrite Heq, (int_str k Hk) in H1. by injection H1.
Qed.

Lemma partition_frame_app (P t : string) :
  partition CRLF (frame P +:+ t) = Some (str (len P), P +:+ t).
Proof.
  unfold frame. rewrite !app_assoc.
  apply partition_exact, str_no_CR, len_nonneg.
Qed.

(** Frames delimit themselves: a stream that starts with a frame starts
    with one frame only, whatever follows it. *)
Theorem frame_self_delimiting (P Q t u : string) :
  frame P +:+ t = frame Q +:+ u → P = Q ∧ t = u.
Proof.
  intros Heq. pose proof (partition_frame_app P t) as HP.
  rewrite Heq, partition_frame_app in HP. injection HP as Hhdr Hrest.
  apply str_inj in Hhdr; [|apply len_nonneg..].
  symmetry in Hrest. apply app_inj_length in Hrest; [done|].
  unfold len in Hhdr. lia.
Qed.

Lemma frame_self_delimiting_witness :
  frame "ab" +:+ "4" = frame "ab" +:+ "4" ∧ "ab" = "ab" ∧ "4" = "4".
Proof.
  split; [reflexivity|].
  apply (frame_self_delimiting "ab" "ab" "4" "4"). reflexivity.
Defined.

(** The size the reader waits for while the frame [P] is arriving. *)
Lemma strict_prefix_short (P a t : string) :
  a +:+ t = frame P → t ≠ "" →
  len a < (if contains CRLF a then len (frame P) else len a + 1).
Proof.
  intros Heq Ht. destruct (contains CRLF a); [|lia].
  rewrite <- Heq, len_app. destruct t; [done|]. unfold len. simpl. lia.
Qed.

Lemma recv_loop_incomplete (P : string) (events : list recv_result)
    (chunks : list string) :
  ∀ acc t, (acc +:+ join chunks) +:+ t = frame P → t ≠ "" →
    recv_loop ((RecvData <$> chunks) ++ events) acc
      (if contains CRLF acc then len (frame P) else len acc + 1)
    = recv_loop events (acc +:+ join chunks)
        (if contains CRLF (acc +:+ join chunks) then len (frame P)
         else len (acc +:+ join chunks) + 1).
Proof.
  induction chunks as [|c cs IH]; intros acc t Heq Ht.
  - change (join []) with "". by rewrite app_nil_r.
  - rewrite join_cons in *. rewrite <- app_assoc in *.
    rewrite recv_loop_eq. rewrite fmap_cons. cbn [app].
    assert (len acc < (if contains CRLF acc then len (frame P) else len acc + 1))
      as Hlt.
    { rewrite !app_assoc in Heq. eapply strict_prefix_short; [exact Heq|].
      intros [_ [_ E]%app_eq_nil]%app_eq_nil. done. }
    apply Z.ltb_lt in Hlt. rewrite Hlt.
    rewrite (expected_size_prefix P (acc +:+ c) (join cs +:+ t))
      by by rewrite <- app_assoc.
    by apply (IH _ t).
Qed.

(** As long as the frame is not complete the reader does not give up and
    hands over nothing: it waits when nothing more arrives (also when the
    peer has closed and [recv] returns empty strings), and a
    [socket.error] of [recv] comes out as it is. *)
Theorem incomplete_frame (P t : string) (chunks : list string) :
  join chunks +:+ t = frame P → t ≠ "" →
  read_frame (RecvData <$> chunks) = (Blocked, []) ∧
  ∀ errno rest,
    read_frame ((RecvData <$> chunks) ++ RecvError errno :: rest)
    = (Raise (SocketError errno), rest).
Proof.
  intros Heq Ht.
  pose proof (strict_prefix_short P _ t Heq Ht) as Hlt. apply Z.ltb_lt in Hlt.
  split; [|intros errno rest]; unfold read_frame.
  - rewrite <- (List.app_nil_r (RecvData <$> chunks)).
    change 1 with (if contains CRLF "" then len (frame P) else len "" + 1).
    rewrite (recv_loop_incomplete P [] chunks "" t), app_nil_l by done.
    rewrite recv_loop_eq. by rewrite Hlt.
  - change 1 with (if contains CRLF "" then len (frame P) else len "" + 1).
    rewrite (recv_loop_incomplete P _ chunks "" t), app_nil_l by done.
    rewrite recv_loop_eq. by rewrite Hlt.
Qed.

Lemma incomplete_frame_witness :
  join ["5"; CRLF +:+ "he"; ""] +:+ "llo" = frame "hello" ∧ "llo" ≠ "" ∧
  read_frame (RecvData <$> ["5"; CRLF +:+ "he"; ""]) = (Blocked, []) ∧
  ∀ errno rest,
    read_frame ((RecvData <$> ["5"; CRLF +:+ "he"; ""]) ++ RecvError errno :: rest)
    = (Raise (SocketError errno), rest).
Proof.
  split; [reflexivity|]. split; [discriminate|].
  apply (incomplete_frame "hello" "llo" ["5"; CRLF +:+ "he"; ""]);
    [reflexivity|discriminate].
Defined.

Lemma read_frame_exact (P : string) (chunks : list string) (rest : list recv_result) :
  Forall (λ s, s ≠ "") chunks → join chunks = frame P →
  read_frame ((RecvData <$> chunks) ++ rest) = (Val P, rest).
Proof.
  intros Hne Hjoin.
  destruct (recv_loop_frame P rest chunks "" Hjoin)
    as (used & leftover & -> & Hempty & Hloop).
  apply Forall_app in Hne as [_ Hne].
  assert (leftover = []) as ->.
  { destruct leftover as [|s l]; [done|].
    apply Forall_cons in Hne as [Hs _], Hempty as [Hs' _]. done. }
  unfold read_frame. change (if contains CRLF "" then _ else _) with 1 in Hloop.
  rewrite Hloop. unfold split1. by rewrite partition_frame.
Qed.

(** Two frames that arrive one after the other, each in reads of its own,
    are read one after the other: the first read of a frame takes the
    reads of the first frame and leaves those of the second. *)
Theorem two_frames_in_a_row (P Q : string) (chunks1 chunks2 : list string)
    (rest : list recv_result) :
  Forall (λ s, s ≠ "") chunks1 → join chunks1 = frame P →
  Forall (λ s, s ≠ "") chunks2 → join chunks2 = frame Q →
  read_frame ((RecvData <$> chunks1) ++ (RecvData <$> chunks2) ++ rest)
  = (Val P, (RecvData <$> chunks2) ++ rest) ∧
  read_frame ((RecvData <$> chunks2) ++ rest) = (Val Q, rest).
Proof. intros. split; by apply read_frame_exact. Qed.

Lemma two_frames_in_a_row_witness :
  Forall (λ s, s ≠ "") ["2" +:+ CRLF; "ok"] ∧
  join ["2" +:+ CRLF; "ok"] = frame "ok" ∧
  Forall (λ s, s ≠ "") [frame "bye"] ∧ join [frame "bye"] = frame "bye" ∧
  read_frame ((RecvData <$> ["2" +:+ CRLF; "ok"]) ++ (RecvData <$> [frame "bye"]) ++ [])
  = (Val "ok", (RecvData <$> [frame "bye"]) ++ []) ∧
  read_frame ((RecvData <$> [frame "bye"]) ++ []) = (Val "bye", []).
Proof.
  assert (Forall (λ s, s ≠ "") ["2" +:+ CRLF; "ok"]) as H1
    by (repeat constructor; discriminate).
  assert (Forall (λ s, s ≠ "") [frame "bye"]) as H2
    by (repeat constructor; discriminate).
  split; [exact H1|]. split; [reflexivity|]. split; [exact H2|].
  split; [reflexivity|].
  exact (two_frames_in_a_row "ok" "bye" ["2" +:+ CRLF; "ok"] [frame "bye"] []
           H1 eq_refl H2 eq_refl).
Defined.

End StreamFacts.

(** ** Requests, responses and arguments *)

Module RequestFacts.
Import Py StrFacts IntFacts.

(** [int(str(n)) == n] for every integer. *)
Lemma int_str_any (k : Z) : int (str k) = Some k.
Proof.
  destruct (Z.le_gt_cases 0 k) as [Hk|Hk]; [by apply int_str|].
  destruct k as [|p|p]; try lia. clear Hk.
  pose proof (str_digits (Z.pos p) ltac:(lia)) as Hd.
  unfold str in *. simpl Z.to_int in *. unfold NilZero.string_of_int in *.
  set (ds := NilZero.string_of_uint (Pos.to_uint p)) in *.
  unfold int. rewrite lstrip_id by done.
  rewrite rstrip_id.
  2:{ simpl. eapply forallb_impl; [|exact Hd]. intros a Ha.
      by rewrite (digit_not_space _ Ha). }
  cbv beta iota.
  change (String "-" ds) with (NilZero.string_of_int (Neg (Pos.to_uint p))).
  rewrite NilZero.isi; [| done |intros [= E]; by apply to_uint_nonnil in E].
  simpl. f_equal. apply (DecimalZ.of_to (Z.neg p)).
Qed.


(** An encrypted result comes back as it was written: the ciphertext that
    [str] wrote in decimal is read by [int] as the same integer, the
    exponent is taken as it is, and both go to [decrypt]; the operation is
    handed on with the result. *)
Theorem decode_encrypted_result (E : env) (d : gmap string pyval) (c e : Z)
    (op : pyval) (w : world) :
  d !! "result" = Some (PList [PStr (str c); PInt e]) →
  d !! "operation" = Some op →
  decode E "encrypted" (PDict d) w
  = (match decrypt E c e with
     | Val x => Val (x, op)
     | Raise ex => Raise ex
     | Blocked => Blocked
     end, w).
Proof.
  intros Hres Hop. unfold decode, mbind, M_bind, lift, mret, M_ret. simpl.
  rewrite Hres, Hop. simpl. rewrite int_str_any. simpl.
  by destruct (decrypt E c e).
Qed.

Lemma decode_encrypted_result_witness :
  let d : gmap string pyval :=
    <["result" := PList [PStr (str 1234567); PInt (-13)]]>
      (<["operation" := PStr "+"]> ∅) in
  d !! "result" = Some (PList [PStr (str 1234567); PInt (-13)]) ∧
  d !! "operation" = Some (PStr "+") ∧
  decode Sample.E "encrypted" (PDict d) Sample.start
  = (match decrypt Sample.E 1234567 (-13) with
     | Val x => Val (x, PStr "+")
     | Raise ex => Raise ex
     | Blocked => Blocked
     end, Sample.start).
Proof.
  split; [reflexivity|]. split; [reflexivity|].
  apply (decode_encrypted_result Sample.E
           (<["result" := PList [PStr (str 1234567); PInt (-13)]]>
              (<["operation" := PStr "+"]> ∅)) 1234567 (-13) (PStr "+")
           Sample.start); reflexivity.
Defined.

(** A request has the six fields of the protocol and no other; its type
    is ['request'], its mode the one asked for, its public key the [g] and
    [n] of the key pair. The operands and the expected result returned
    with it are the two draws and [get_expected_result] of them. *)
Theorem request_fields (E : env) (mode : string) (d : draw) :
  let '(operand_1, operand_2, expected_result, message) :=
    generate_random_request E mode d in
  dom message
  = ({["type"; "mode"; "public_key"; "operation"; "operand_1"; "operand_2"]}
     : gset string) ∧
  message !! "type" = Some (PStr "request") ∧
  message !! "mode" = Some (PStr mode) ∧
  message !! "public_key"
  = Some (PDict (<["n" := PInt (n E)]> (<["g" := PInt (g E)]> ∅))) ∧
  operand_1 = uniform_1 d ∧ operand_2 = uniform_2 d ∧
  ∃ operation, message !! "operation" = Some (PStr operation) ∧
    expected_result = get_expected_result operand_1 operand_2 operation.
Proof.
  unfold generate_random_request. cbv zeta.
  destruct (String.eqb mode "encrypted");
    [destruct (String.eqb (random_choice operations (pick d)) "+")|];
    (split_and!;
     [rewrite !dom_insert_L, dom_empty_L; set_solver
     |by rewrite !lookup_insert_ne, lookup_insert_eq by done..
     |done|done
     |eexists; split;
        [by rewrite !lookup_insert_ne, lookup_insert_eq by done|done]]).
Qed.

(** The generator with its stopwatch returns what the generator without
    it returns. It takes one sample of encryption time for every operand
    it encrypts (two for ['+'], one for the other operations, none in
    unencrypted mode), reads the clock twice for each, and touches no
    other samples. *)
Theorem generate_random_request_timing (E : env) (now : nat → spec_float)
    (mode : string) (d : draw) (t : stopwatch) :
  let '(operand_1, operand_2, expected_result, message, t') :=
    generate_random_request_timed E now mode d t in
  let k :=
    if String.eqb mode "encrypted" then
      if String.eqb (random_choice operations (pick d)) "+" then 2%nat else 1%nat
    else 0%nat in
  (operand_1, operand_2, expected_result, message)
  = generate_random_request E mode d ∧
  samples "encrypt" t' = (samples "encrypt" t + k)%nat ∧
  ticks t' = (ticks t + 2 * k)%nat ∧
  (∀ key, key ≠ "encrypt" →
     processing_times t' !! key = processing_times t !! key) ∧
  (k = 0%nat → t' = t).
Proof.
  unfold generate_random_request_timed, generate_random_request, timed, samples,
    append_sample. cbv zeta.
  destruct (String.eqb mode "encrypted");
    [destruct (String.eqb (random_choice operations (pick d)) "+")|]; simpl.
  - split_and!; try done.
    + rewrite !lookup_insert_eq. simpl. rewrite !List.length_app. simpl. lia.
    + lia.
    + intros key Hkey. by rewrite !lookup_insert_ne by done.
  - split_and!; try done.
    + rewrite !lookup_insert_eq. simpl. rewrite !List.length_app. simpl. lia.
    + lia.
    + intros key Hkey. by rewrite !lookup_insert_ne by done.
  - split_and!; try done; lia.
Qed.

(** The decoding with its stopwatch gives the result of the decoding
    without it. It takes at most one sample of decryption time, and it
    takes one whenever a result comes out in encrypted mode; in
    unencrypted mode the stopwatch is not touched. The encryption samples
    are never touched. *)
Theorem decode_timing (E : env) (now : nat → spec_float) (mode : string)
    (response : pyval) (t : stopwatch) (w : world) :
  let '(r, t') := decode_timed E now mode response t in
  r = (decode E mode response w).1 ∧
  processing_times t' !! "encrypt" = processing_times t !! "encrypt" ∧
  (samples "decrypt" t' = samples "decrypt" t ∨
   samples "decrypt" t' = S (samples "decrypt" t)) ∧
  (String.eqb mode "encrypted" = true → (∃ x, r = Val x) →
   samples "decrypt" t' = S (samples "decrypt" t)) ∧
  (String.eqb mode "encrypted" = false → t' = t).
Proof.
  unfold decode_timed, decode, ciphertext_and_exponent, mbind, M_bind, lift,
    mret, M_ret, samples, append_sample.
  destruct (String.eqb mode "encrypted").
  - destruct (Value.getitem response "result") as [r| |]; simpl;
      [|by split_and!; try done; [left|intros _ [? ?]]..].
    destruct (Value.getitem_index r 0) as [r0| |]; simpl;
      [|by split_and!; try done; [left|intros _ [? ?]]..].
    destruct (Value.int r0) as [c| |]; simpl;
      [|by split_and!; try done; [left|intros _ [? ?]]..].
    destruct (Value.getitem_index r 1) as [r1| |]; simpl;
      [|by split_and!; try done; [left|intros _ [? ?]]..].
    destruct (Value.int r1) as [e| |]; simpl;
      [|by split_and!; try done; [left|intros _ [? ?]]..].
    destruct (decrypt E c e) as [x| |]; simpl;
      [|by split_and!; try done; [left|intros _ [? ?]]..].
    assert (length (default [] (<["decrypt" := default []
                        (processing_times t !! "decrypt") ++
                        [Float.sub (now (S (ticks t))) (now (ticks t))]]>
                        (processing_times t) !! "decrypt"))
            = S (length (default [] (processing_times t !! "decrypt")))) as Hlen.
    { rewrite lookup_insert_eq. simpl. rewrite List.length_app. simpl. lia. }
    destruct (Value.getitem response "operation") as [op| |]; simpl;
      (split_and!; [done|by rewrite lookup_insert_ne by done|by right|done|done]).
  - destruct (Value.getitem response "result") as [r| |]; simpl;
      [|by split_and!; try done; left..].
    destruct (Value.float r) as [x| |]; simpl;
      [|by split_and!; try done; left..].
    destruct (Value.getitem response "operation") as [op| |]; simpl;
      by split_and!; try done; left.
Qed.


Lemma SFadd_comm (x y : spec_float) : Float.add x y = Float.add y x.
Proof.
  unfold Float.add, SFadd.
  destruct x as [[]|[]| |sx mx ex], y as [[]|[]| |sy my ey]; try reflexivity.
  by rewrite (Z.min_comm ex ey), Z.add_comm.
Qed.

Lemma SFmul_comm (x y : spec_float) : Float.mul x y = Float.mul y x.
Proof.
  unfold Float.mul, SFmul.
  destruct x as [sx|sx| |sx mx ex], y as [sy|sy| |sy my ey];
    try reflexivity; try by rewrite (xorb_comm sx sy).
  by rewrite (xorb_comm sx sy), (Pos.mul_comm mx my), (Z.add_comm ex ey).
Qed.

(** The expected result does not depend on the order of the operands,
    for any operation; and ['+'] and ['+*'], or any label other than
    ['x*'], give the sum. *)
Theorem get_expected_result_symmetric (operand_1 operand_2 : spec_float)
    (operation : string) :
  get_expected_result operand_1 operand_2 operation
  = get_expected_result operand_2 operand_1 operation ∧
  (operation ≠ "x*" →
     get_expected_result operand_1 operand_2 operation
     = get_expected_result operand_1 operand_2 "+").
Proof.
  unfold get_expected_result. split.
  - destruct (String.eqb operation "x*"); [apply SFmul_comm|apply SFadd_comm].
  - intros Hne. by destruct (String.eqb_spec operation "x*").
Qed.

End RequestFacts.

(** ** Whole runs *)

Module RunFacts.
Import TallyFacts ClientFacts.

Section Runs.

Variable E : env.

(** A [tally] that does not return leaves every counter at its value. *)
Lemma tally_fail_counter (key : string) (response : pyval) (w w' : world)
    (r : result ()) :
  tally key response w = (r, w') → (∀ u, r ≠ Val u) →
  ∀ k j, counter w' k j = counter w k j.
Proof.
  intros (_ & _ & _ & _ & _ & Hc)%tally_any Hr k j.
  destruct r as [u|e|]; [by destruct (Hr u)|..];
    (destruct Hc as [Hc|[Hc Hnone]]; [by apply counter_correctness|];
     unfold counter; rewrite Hc;
     destruct (decide (key = k)) as [<-|Hne];
     [rewrite lookup_insert_eq, Hnone; simpl; apply counters0_lookup
     |by rewrite lookup_insert_ne by done]).
Qed.

(** What a round does to the counters. *)
Lemma round_counters (mode : string) (i : nat) (w w' : world) (r : result round_log) :
  round E mode i w = (r, w') →
  match r with
  | Val log =>
      ∃ s b idx,
        ending log = Recorded (PStr s) b ∧ log_mode log = mode ∧
        issued log = random_choice operations (pick (draws E mode i)) ∧
        Value.find s operations = Some idx ∧
        ∀ k j, counter w' k j
               = counter w k j
                 + (if bool_decide (k = (if b then "correct" else "wrong") ∧ j = idx)
                    then 1 else 0)
  | _ => ∀ k j, counter w' k j = counter w k j
  end.
Proof.
  intros [[Hc Hne]|(w1 & response & result & operation & r0 & Hw1 & Hop & Hrec & Hr)]%round_inv.
  - destruct r as [log|e|]; [by destruct (Hne log)|..];
      intros k j; by apply counter_correctness.
  - assert (record_outcome result (expected (draws E mode i)) response
            = tally (if negb (Float.ne result (expected (draws E mode i)))
                     then "correct" else "wrong") response) as Heq.
    { unfold record_outcome. by destruct (Float.ne _ _). }
    rewrite Heq in Hrec. destruct r0 as [[]|e|]; subst r.
    + apply tally_counter in Hrec as (op' & idx & Hop' & Hidx & Hcount).
      rewrite Hop in Hop'. injection Hop' as <-.
      destruct operation as [| | | |s| | |]; try done.
      unfold Value.index, Value.of_option in Hidx.
      destruct (Value.find s operations) as [idx'|] eqn:Hfind; [|done].
      injection Hidx as ->.
      exists s, (negb (Float.ne result (expected (draws E mode i)))), idx.
      split_and!; try done. intros k j. rewrite Hcount.
      by rewrite (counter_correctness w w1).
    + intros k j. rewrite (tally_fail_counter _ _ _ _ _ Hrec) by done.
      by apply counter_correctness.
    + intros k j. rewrite (tally_fail_counter _ _ _ _ _ Hrec) by done.
      by apply counter_correctness.
Qed.

Lemma recorded_count_app (op : string) (b : bool) (l1 l2 : list round_log) :
  recorded_count op b (l1 ++ l2) = recorded_count op b l1 + recorded_count op b l2.
Proof. induction l1 as [|l l1 IH]; simpl; [done|]. rewrite IH. lia. Qed.

(** The counter a completed round adds to, read off its log entry. *)
Lemma round_recorded (mode : string) (i : nat) (w w' : world) (log : round_log)
    (j : nat) (op : string) (b : bool) :
  round E mode i w = (Val log, w') → operations !! j = Some op →
  counter w' (if b then "correct" else "wrong") j
  = counter w (if b then "correct" else "wrong") j + recorded_count op b [log].
Proof.
  intros (s & b' & idx & Hend & _ & _ & Hfind & Hcount)%round_counters Hj.
  rewrite Hcount. simpl. rewrite Hend. f_equal.
  apply find_operations in Hfind.
  destruct (String.eqb_spec s op) as [->|Hne]; simpl.
  - assert (j = idx) as <-.
    { apply find_operations in Hj, Hfind. congruence. }
    destruct b, b'; simpl; by repeat case_bool_decide; try lia;
      exfalso; intuition discriminate.
  - rewrite bool_decide_eq_false_2; [lia|]. intros [_ ->]. congruence.
Qed.

Lemma close_counter (w : world) (k : string) (j : nat) :
  counter (close w) k j = counter w k j.
Proof. reflexivity. Qed.

Lemma for_xrange_recorded (mode : string) (range : list nat) (j : nat)
    (op : string) (b : bool) :
  operations !! j = Some op →
  ∀ w st logs w',
    for_xrange E mode range w = (st, logs, w') →
    counter w' (if b then "correct" else "wrong") j
    = counter w (if b then "correct" else "wrong") j + recorded_count op b logs.
Proof.
  intros Hj. induction range as [|i range IH]; intros w st logs w'; simpl.
  - intros [= _ <- <-]. simpl. lia.
  - destruct (round E mode i w) as [[log|e|] w1] eqn:Hround.
    + destruct (for_xrange E mode range w1) as [[st1 logs1] w2] eqn:Hrest.
      intros [= _ <- <-]. rewrite (IH _ _ _ _ Hrest).
      rewrite (round_recorded _ _ _ _ _ _ _ b Hround Hj).
      change (log :: logs1) with ([log] ++ logs1).
      rewrite recorded_count_app. lia.
    + pose proof (round_counters _ _ _ _ _ Hround) as Hsame. simpl in Hsame.
      destruct e as [errno| | | | |];
        try (intros [= _ <- <-]; simpl; rewrite Hsame; lia).
      destruct ((errno =? EAGAIN) || (errno =? EWOULDBLOCK)).
      * destruct (for_xrange E mode range w1) as [[st1 logs1] w2] eqn:Hrest.
        intros [= _ <- <-]. rewrite (IH _ _ _ _ Hrest). simpl.
        rewrite Hsame. lia.
      * intros [= _ <- <-]. simpl. rewrite close_counter, Hsame. lia.
    + pose proof (round_counters _ _ _ _ _ Hround) as Hsame. simpl in Hsame.
      intros [= _ <- <-]. simpl. rewrite Hsame. lia.
Qed.

Lemma for_modes_recorded (modes : list string) (nr_ops : Z) (j : nat)
    (op : string) (b : bool) :
  operations !! j = Some op →
  ∀ w st logs w',
    for_modes E modes nr_ops w = (st, logs, w') →
    counter w' (if b then "correct" else "wrong") j
    = counter w (if b then "correct" else "wrong") j + recorded_count op b logs.
Proof.
  intros Hj. induction modes as [|mode modes IH]; intros w st logs w'; simpl.
  - intros [= _ <- <-]. simpl. lia.
  - destruct (for_xrange E mode (seq 0 (Z.to_nat nr_ops)) w)
      as [[st1 logs1] w1] eqn:Hloop.
    pose proof (for_xrange_recorded _ _ _ _ b Hj _ _ _ _ Hloop) as H1.
    destruct st1; try by intros [= _ <- <-].
    destruct (for_modes E modes nr_ops w1) as [[st2 logs2] w2] eqn:Hrest.
    intros [= _ <- <-]. rewrite (IH _ _ _ _ Hrest), recorded_count_app. lia.
Qed.

(** However a run ends, each counter holds the number of completed
    rounds whose response named its operation and had its verdict:
    [correct[j]] counts the responses that named [operations[j]] with a
    result equal to the expected one, [wrong[j]] those with another
    result. Rounds that were skipped or that ended the run count nowhere. *)
Theorem counters_count_responses (plot : bool) (nr_ops : Z) (w w' : world)
    (st : status) (logs : list round_log) (j : nat) (op : string) :
  main E plot nr_ops w = (st, logs, w') →
  operations !! j = Some op →
  counter w' "correct" j = counter w "correct" j + recorded_count op true logs ∧
  counter w' "wrong" j = counter w "wrong" j + recorded_count op false logs.
Proof.
  intros Hmain Hj. unfold main in Hmain.
  destruct (for_modes E _ nr_ops w) as [[st1 logs1] w1] eqn:Hloops.
  pose proof (for_modes_recorded _ _ _ _ true Hj _ _ _ _ Hloops) as Ht.
  pose proof (for_modes_recorded _ _ _ _ false Hj _ _ _ _ Hloops) as Hf.
  simpl in Ht, Hf.
  destruct st1; try (by injection Hmain as _ <- <-).
  destruct (finish E plot w1) as [r w2] eqn:Hfin.
  apply finish_keeps in Hfin.
  rewrite <- !(counter_correctness w1 w2) in Ht, Hf by done.
  by destruct r as [[]|e|]; injection Hmain as _ <- <-.
Qed.

(** A response that names something else than one of the three
    operations is not counted: [record_outcome] raises [ValueError]. By
    then it has made the vector of its verdict if there was none, so the
    key is there afterwards, and all counters are as before. *)
Theorem unknown_operation_not_counted (result expected_result : spec_float)
    (response operation : pyval) (w : world) :
  Value.getitem response "operation" = Val operation →
  (∀ idx, Value.index operations operation ≠ Val idx) →
  let key := if SFeqb result expected_result then "correct" else "wrong" in
  ∃ w', record_outcome result expected_result response w = (Raise Py.ValueError, w') ∧
    is_Some (correctness w' !! key) ∧
    ∀ k j, counter w' k j = counter w k j.
Proof.
  intros Hop Hidx key.
  assert (record_outcome result expected_result response = tally key response) as ->.
  { unfold record_outcome, Float.ne, key. by destruct (SFeqb _ _). }
  assert (Value.index operations operation = Raise Py.ValueError) as Hraise.
  { destruct operation as [| | | |s| | |]; try done.
    unfold Value.index, Value.of_option in *.
    destruct (Value.find s operations) as [idx|]; [by destruct (Hidx idx)|done]. }
  destruct (tally key response w) as [r w'] eqn:Htally. exists w'.
  assert (r = Raise Py.ValueError ∧ is_Some (correctness w' !! key)) as [-> Hkey].
  { revert Htally.
    unfold tally, mbind, M_bind, get_correctness, put_correctness, lift, mret, M_ret.
    destruct (correctness w !! key) as [v|] eqn:Hv; simpl.
    - rewrite Hv. simpl. rewrite Hop, Hraise. intros [= <- <-]. by rewrite Hv.
    - rewrite lookup_insert_eq. simpl. rewrite Hop, Hraise. intros [= <- <-].
      simpl. by rewrite lookup_insert_eq. }
  split_and!; [done..|]. by eapply tally_fail_counter.
Qed.

Lemma unknown_operation_not_counted_witness :
  let response : pyval :=
    PDict (<["result" := PStr "7.875"]> (<["operation" := PStr "-"]> ∅)) in
  Value.getitem response "operation" = Val (PStr "-") ∧
  (∀ idx, Value.index operations (PStr "-") ≠ Val idx) ∧
  ∃ w', record_outcome (Sample.flt "7.875") (Sample.flt "7.875") response Sample.start
        = (Raise Py.ValueError, w') ∧
    is_Some (correctness w' !! "correct") ∧
    ∀ k j, counter w' k j = counter Sample.start k j.
Proof.
  assert (∀ idx, Value.index operations (PStr "-") ≠ Val idx) as Hidx by done.
  split; [reflexivity|]. split; [exact Hidx|].
  exact (unknown_operation_not_counted (Sample.flt "7.875") (Sample.flt "7.875")
           (PDict (<["result" := PStr "7.875"]> (<["operation" := PStr "-"]> ∅)))
           (PStr "-") Sample.start eq_refl Hidx).
Defined.

(** *** The socket during a run *)

Lemma sendall_spec (data : string) (w w0 : world) (r : result ()) :
  sendall data w = (r, w0) →
  closed w0 = closed w ∧
  match sendall_errors w with
  | Some errno :: errors =>
      r = Raise (Py.SocketError errno) ∧ outgoing w0 = outgoing w ∧
      sendall_errors w0 = errors
  | errors =>
      r = Val () ∧ outgoing w0 = outgoing w ++ [data] ∧
      sendall_errors w0 = tail errors
  end.
Proof.
  unfold sendall.
  by destruct (sendall_errors w) as [|[errno|] errors]; intros [= <- <-].
Qed.

(** A round writes its request when the send goes through, and then
    nothing more; it never closes the socket. *)
Lemma round_socket (mode : string) (i : nat) (w w' : world) (r : result round_log) :
  round E mode i w = (r, w') →
  closed w' = closed w ∧
  match sendall_errors w with
  | Some errno :: errors =>
      r = Raise (Py.SocketError errno) ∧ outgoing w' = outgoing w ∧
      sendall_errors w' = errors
  | errors =>
      outgoing w' = outgoing w ++ [request_frame E mode i] ∧
      sendall_errors w' = tail errors
  end.
Proof.
  unfold round, request_frame.
  destruct (generate_random_request E mode (draws E mode i))
    as [[[operand_1 operand_2] expected_result] body].
  unfold send_message, mbind, M_bind, lift. simpl snd.
  destruct (sendall _ w) as [r0 w0] eqn:Hsend.
  apply sendall_spec in Hsend as [Hclosed Hsend].
  assert (∀ w1, outgoing w1 = outgoing w0 → sendall_errors w1 = sendall_errors w0 →
            closed w1 = closed w0 →
            r0 = Val () →
            closed w1 = closed w ∧
            match sendall_errors w with
            | Some errno :: errors =>
                r = Raise (Py.SocketError errno) ∧ outgoing w1 = outgoing w ∧
                sendall_errors w1 = errors
            | errors =>
                outgoing w1 = outgoing w ++ [Framing.frame (json_dumps E (PDict body))] ∧
                sendall_errors w1 = tail errors
            end) as Hkeep.
  { intros w1 Hout Herr Hcl ->. split; [congruence|].
    destruct (sendall_errors w) as [|[errno|] errors];
      destruct Hsend as (? & ? & ?); try done; split; congruence. }
  destruct r0 as [[]|e|].
  2,3: (intros [= <- <-]; split; [done|];
        destruct (sendall_errors w) as [|[errno|] errors];
        destruct Hsend as (? & ? & ?); simplify_eq; by split_and!).
  unfold recv_response.
  destruct (Framing.recv_loop (incoming w0) "" 1) as [[buffer|e|] rest];
    [|intros [= <- <-]; by apply Hkeep..].
  destruct (Py.split1 Py.CRLF buffer !! 1%nat) as [payload|]; simpl;
    [|intros [= <- <-]; by apply Hkeep].
  destruct (json_loads E payload) as [response|]; simpl;
    [|intros [= <- <-]; by apply Hkeep].
  destruct (decode E mode response _) as [[[result operation]|e|] w2] eqn:Hdec;
    apply decode_inv in Hdec as [-> _];
    [|intros [= <- <-]; by apply Hkeep..].
  destruct (record_outcome_tally result expected_result response)
    as (key & _ & ->).
  destruct (tally key response _) as [r1 w3] eqn:Htally.
  apply tally_any in Htally as (_ & _ & Hout & Herr & Hcl & _).
  intros Hr. apply Hkeep; try done.
  all: by destruct r1; injection Hr as <- <-.
Qed.

Lemma for_xrange_socket (mode : string) (range : list nat) :
  ∀ w st logs w',
    for_xrange E mode range w = (st, logs, w') →
    closed w' = match st with Exited _ => true | _ => closed w end ∧
    match st with
    | Exited code => code = 1
    | Uncaught e => ∀ errno, e ≠ Py.SocketError errno
    | Finished =>
        (log_mode <$> logs = replicate (length range) mode ∧
         issued <$> logs
         = (λ i, random_choice operations (pick (draws E mode i))) <$> range) ∧
        (sendall_errors w = [] →
         sendall_errors w' = [] ∧
         outgoing w' = outgoing w ++ (request_frame E mode <$> range))
    | Hung => True
    end.
Proof.
  induction range as [|i range IH]; intros w st logs w'; cbn [for_xrange].
  - intros [= <- <- <-]. split_and!; try done. intros ?.
    by rewrite List.app_nil_r.
  - destruct (round E mode i w) as [r w1] eqn:Hround.
    pose proof (round_socket _ _ _ _ _ Hround) as [Hcl Hsock].
    pose proof (round_counters _ _ _ _ _ Hround) as Hlog.
    assert (sendall_errors w = [] →
            sendall_errors w1 = [] ∧
            outgoing w1 = outgoing w ++ [request_frame E mode i]) as Hsend.
    { intros Hnil. rewrite Hnil in Hsock. by destruct Hsock. }
    destruct r as [log|e|].
    + destruct (for_xrange E mode range w1) as [[st1 logs1] w2] eqn:Hrest.
      intros [= <- <- <-]. destruct (IH _ _ _ _ Hrest) as [Hcl' Hst].
      rewrite Hcl in Hcl'. split; [done|].
      destruct st1; try done.
      destruct Hst as [[Hmodes Hissued] Hout], Hlog as (s & b & idx & _ & Hm & Hi & _).
      split; [split; [rewrite fmap_cons, Hm, Hmodes|rewrite !fmap_cons, Hi, Hissued];
              reflexivity|].
      intros Hnil. destruct (Hsend Hnil) as [Hnil1 Hout1].
      destruct (Hout Hnil1) as [-> ->]. split; [done|].
      by rewrite Hout1, fmap_cons, <- List.app_assoc.
    + destruct e as [errno| | | | |]; try by intros [= <- <- <-].
      destruct ((errno =? EAGAIN) || (errno =? EWOULDBLOCK)).
      * destruct (for_xrange E mode range w1) as [[st1 logs1] w2] eqn:Hrest.
        intros [= <- <- <-]. destruct (IH _ _ _ _ Hrest) as [Hcl' Hst].
        rewrite Hcl in Hcl'. split; [done|].
        destruct st1; try done.
        destruct Hst as [[Hmodes Hissued] Hout].
        split; [split; [rewrite fmap_cons, Hmodes|rewrite !fmap_cons, Hissued];
                reflexivity|].
        intros Hnil. destruct (Hsend Hnil) as [Hnil1 Hout1].
        destruct (Hout Hnil1) as [-> ->]. split; [done|].
        by rewrite Hout1, fmap_cons, <- List.app_assoc.
      * by intros [= <- <- <-].
    + by intros [= <- <- <-].
Qed.

Lemma for_modes_socket (modes : list string) (nr_ops : Z) :
  ∀ w st logs w',
    for_modes E modes nr_ops w = (st, logs, w') →
    closed w' = match st with Exited _ => true | _ => closed w end ∧
    match st with
    | Exited code => code = 1
    | Uncaught e => ∀ errno, e ≠ Py.SocketError errno
    | Finished =>
        (log_mode <$> logs
         = mjoin ((λ mode, replicate (Z.to_nat nr_ops) mode) <$> modes) ∧
         issued <$> logs
         = mjoin ((λ mode, (λ i, random_choice operations (pick (draws E mode i)))
                             <$> seq 0 (Z.to_nat nr_ops)) <$> modes)) ∧
        (sendall_errors w = [] →
         sendall_errors w' = [] ∧
         outgoing w' = outgoing w ++
           mjoin ((λ mode, request_frame E mode <$> seq 0 (Z.to_nat nr_ops))
                  <$> modes))
    | Hung => True
    end.
Proof.
  induction modes as [|mode modes IH]; intros w st logs w'; cbn [for_modes].
  - intros [= <- <- <-]. split_and!; try done. intros ?.
    by rewrite List.app_nil_r.
  - destruct (for_xrange E mode (seq 0 (Z.to_nat nr_ops)) w)
      as [[st1 logs1] w1] eqn:Hloop.
    apply for_xrange_socket in Hloop as [Hcl1 Hst1].
    destruct st1; try by intros [= <- <- <-].
    destruct (for_modes E modes nr_ops w1) as [[st2 logs2] w2] eqn:Hrest.
    intros [= <- <- <-]. destruct (IH _ _ _ _ Hrest) as [Hcl2 Hst2].
    rewrite Hcl1 in Hcl2. split; [done|].
    destruct st2; try done.
    destruct Hst1 as [[Hm1 Hi1] Hout1], Hst2 as [[Hm2 Hi2] Hout2].
    rewrite length_seq in Hm1.
    split; [split; rewrite !fmap_app; [rewrite Hm1, Hm2|rewrite Hi1, Hi2];
            reflexivity|].
    intros Hnil. destruct (Hout1 Hnil) as [Hnil1 Hw1].
    destruct (Hout2 Hnil1) as [-> ->]. split; [done|].
    rewrite Hw1, <- List.app_assoc. reflexivity.
Qed.

Lemma finish_socket (plot : bool) (w w' : world) (r : result ()) :
  finish E plot w = (r, w') →
  closed w' = match r with Val _ => true | _ => closed w end ∧
  (sendall_errors w = [] → r = Val () →
   outgoing w' = outgoing w ++
     [Framing.frame (json_dumps E (PDict (last_message plot)))]).
Proof.
  unfold finish, last_message, mbind, M_bind, lift, sock_close, send_message.
  destruct plot; simpl.
  - destruct (print_graph E); simpl; [by intros [= <- <-]|].
    destruct (sendall _ w) as [r0 w0] eqn:Hsend.
    apply sendall_spec in Hsend as [Hcl Hsend].
    destruct r0 as [[]|e|]; intros [= <- <-]; split; try done.
    intros Hnil _. rewrite Hnil in Hsend. destruct Hsend as (_ & Hout & _).
    exact Hout.
  - destruct (sendall _ w) as [r0 w0] eqn:Hsend.
    apply sendall_spec in Hsend as [Hcl Hsend].
    destruct r0 as [[]|e|]; intros [= <- <-]; split; try done.
    intros Hnil _. rewrite Hnil in Hsend. destruct Hsend as (_ & Hout & _).
    exact Hout.
Qed.

(** A run that goes through makes [nr_ops] iterations in encrypted mode
    and then [nr_ops] in unencrypted mode, with the operations the draws
    gave, whether the rounds were completed or skipped. *)
Theorem finished_run_iterations (plot : bool) (nr_ops : Z) (w w' : world)
    (logs : list round_log) :
  main E plot nr_ops w = (Finished, logs, w') →
  let k := Z.to_nat nr_ops in
  let choice mode i := random_choice operations (pick (draws E mode i)) in
  log_mode <$> logs = replicate k "encrypted" ++ replicate k "unencrypted" ∧
  issued <$> logs
  = (choice "encrypted" <$> seq 0 k) ++ (choice "unencrypted" <$> seq 0 k).
Proof.
  unfold main.
  destruct (for_modes E _ nr_ops w) as [[st1 logs1] w1] eqn:Hloops.
  apply for_modes_socket in Hloops as [_ Hst].
  destruct st1; try done.
  destruct (finish E plot w1) as [[[]|e|] w2]; try done.
  intros [= <- <-]. destruct Hst as [[Hm Hi] _]. simpl in Hm, Hi.
  rewrite !List.app_nil_r in *. done.
Qed.

(** When no [sendall] fails, a run that goes through has written one
    request frame for every iteration, in order, whether or not the
    response was read, and after them the frame of the ['terminate']
    message, or of the ['plot'] message when plotting was asked for. *)
Theorem finished_run_output (plot : bool) (nr_ops : Z) (w w' : world)
    (logs : list round_log) :
  sendall_errors w = [] →
  main E plot nr_ops w = (Finished, logs, w') →
  outgoing w'
  = outgoing w
    ++ (request_frame E "encrypted" <$> seq 0 (Z.to_nat nr_ops))
    ++ (request_frame E "unencrypted" <$> seq 0 (Z.to_nat nr_ops))
    ++ [Framing.frame (json_dumps E (PDict (last_message plot)))].
Proof.
  intros Hnil. unfold main.
  destruct (for_modes E _ nr_ops w) as [[st1 logs1] w1] eqn:Hloops.
  apply for_modes_socket in Hloops as [_ Hst].
  destruct st1; try done.
  destruct (finish E plot w1) as [[[]|e|] w2] eqn:Hfin; try done.
  intros [= <- <-]. destruct Hst as [_ Hout].
  destruct (Hout Hnil) as [Hnil1 Hout1].
  apply finish_socket in Hfin as [_ Hlast].
  rewrite (Hlast Hnil1 eq_refl), Hout1. simpl.
  by rewrite List.app_nil_r, <- !List.app_assoc.
Qed.

(** The script closes the socket when it has sent its last message and
    when it exits on a socket error, and then the exit status is 1; when
    an exception escapes or the script hangs the socket is left open. *)
Theorem run_closes_socket (plot : bool) (nr_ops : Z) (w w' : world)
    (st : status) (logs : list round_log) :
  closed w = false →
  main E plot nr_ops w = (st, logs, w') →
  closed w' = match st with Finished | Exited _ => true | _ => false end ∧
  match st with Exited code => code = 1 | _ => True end.
Proof.
  intros Hopen. unfold main.
  destruct (for_modes E _ nr_ops w) as [[st1 logs1] w1] eqn:Hloops.
  apply for_modes_socket in Hloops as [Hcl Hst]. rewrite Hopen in Hcl.
  destruct st1; try by intros [= <- <- <-].
  destruct (finish E plot w1) as [r w2] eqn:Hfin.
  apply finish_socket in Hfin as [Hcl2 _]. rewrite Hcl in Hcl2.
  by destruct r as [[]|e|]; intros [= <- <- <-].
Qed.

(** A [socket.error] cannot escape from the loops. When a run ends with
    an uncaught [socket.error] it comes from the send after the loops:
    all iterations have been made and the socket has not been closed. *)
Theorem uncaught_socket_error_is_last_send (plot : bool) (nr_ops : Z)
    (w w' : world) (errno : Z) (logs : list round_log) :
  main E plot nr_ops w = (Uncaught (Py.SocketError errno), logs, w') →
  length logs = (2 * Z.to_nat nr_ops)%nat ∧ closed w' = closed w.
Proof.
  unfold main.
  destruct (for_modes E _ nr_ops w) as [[st1 logs1] w1] eqn:Hloops.
  apply for_modes_socket in Hloops as [Hcl Hst].
  destruct st1; try done.
  - destruct (finish E plot w1) as [r w2] eqn:Hfin.
    apply finish_socket in Hfin as [Hcl2 _].
    destruct r as [[]|e|]; try done. intros [= -> <- <-].
    destruct Hst as [[Hm _] _]. split; [|congruence].
    apply (f_equal length) in Hm. simpl in Hm.
    rewrite length_fmap, !List.length_app, !length_replicate in Hm. simpl in Hm. lia.
  - intros [= -> _ _]. by destruct (Hst errno).
Qed.

(** An exception other than [socket.error] raised in an iteration ends
    the run there: no further iteration is made, the counters hold what
    they held before the iteration, and the socket is not closed. *)
Theorem round_failure_ends_run (mode : string) (i : nat) (range : list nat)
    (w w' : world) (e : Py.exn) :
  round E mode i w = (Raise e, w') →
  (∀ errno, e ≠ Py.SocketError errno) →
  for_xrange E mode (i :: range) w = (Uncaught e, [], w') ∧
  (∀ k j, counter w' k j = counter w k j) ∧
  closed w' = closed w.
Proof.
  intros Hround Hne. split_and!.
  - simpl. rewrite Hround. destruct e as [errno| | | | |]; try done.
    by destruct (Hne errno).
  - by apply (round_counters _ _ _ _ _ Hround).
  - by apply (round_socket _ _ _ _ _ Hround).
Qed.

End Runs.

Lemma counters_count_responses_witness :
  let '(st, logs, w') := main Sample.E false 1 Sample.wrong_echo in
  operations !! 1%nat = Some "+" ∧
  counter w' "correct" 1 = counter Sample.wrong_echo "correct" 1
                           + recorded_count "+" true logs ∧
  counter w' "wrong" 1 = counter Sample.wrong_echo "wrong" 1
                         + recorded_count "+" false logs.
Proof.
  destruct (main Sample.E false 1 Sample.wrong_echo) as [[st logs] w'] eqn:Hmain.
  split; [reflexivity|].
  exact (counters_count_responses Sample.E false 1 Sample.wrong_echo w' st logs
           1 "+" Hmain eq_refl).
Defined.

Lemma finished_run_iterations_witness :
  let '(st, logs, w') := main Sample.E false 1 Sample.would_block in
  st = Finished ∧
  log_mode <$> logs = replicate 1 "encrypted" ++ replicate 1 "unencrypted" ∧
  issued <$> logs
  = ((λ i, random_choice operations (pick (draws Sample.E "encrypted" i)))
       <$> seq 0 1)
    ++ ((λ i, random_choice operations (pick (draws Sample.E "unencrypted" i)))
          <$> seq 0 1).
Proof.
  destruct (main Sample.E false 1 Sample.would_block) as [[st logs] w'] eqn:Hmain.
  assert (st = Finished) as -> by (by vm_compute in Hmain; injection Hmain as <- _ _).
  split; [reflexivity|].
  exact (finished_run_iterations Sample.E false 1 Sample.would_block w' logs Hmain).
Defined.

Lemma finished_run_output_witness :
  let '(st, logs, w') := main Sample.E true 1 Sample.would_block in
  sendall_errors Sample.would_block = [] ∧ st = Finished ∧
  outgoing w'
  = outgoing Sample.would_block
    ++ (request_frame Sample.E "encrypted" <$> seq 0 (Z.to_nat 1))
    ++ (request_frame Sample.E "unencrypted" <$> seq 0 (Z.to_nat 1))
    ++ [Framing.frame (json_dumps Sample.E (PDict (last_message true)))].
Proof.
  destruct (main Sample.E true 1 Sample.would_block) as [[st logs] w'] eqn:Hmain.
  assert (st = Finished) as -> by (by vm_compute in Hmain; injection Hmain as <- _ _).
  split; [reflexivity|]. split; [reflexivity|].
  exact (finished_run_output Sample.E true 1 Sample.would_block w' logs
           eq_refl Hmain).
Defined.

Lemma run_closes_socket_witness :
  let '(st, logs, w') := main Sample.E false 1 Sample.broken_pipe in
  closed Sample.broken_pipe = false ∧ st = Exited 1 ∧
  closed w' = match st with Finished | Exited _ => true | _ => false end ∧
  match st with Exited code => code = 1 | _ => True end.
Proof.
  destruct (main Sample.E false 1 Sample.broken_pipe) as [[st logs] w'] eqn:Hmain.
  split; [reflexivity|].
  split; [by vm_compute in Hmain; injection Hmain as <- _ _|].
  exact (run_closes_socket Sample.E false 1 Sample.broken_pipe w' st logs
           eq_refl Hmain).
Defined.

Lemma uncaught_socket_error_is_last_send_witness :
  let w' := (main Sample.E false 1 Sample.last_send_fails).2 in
  let logs := (main Sample.E false 1 Sample.last_send_fails).1.2 in
  main Sample.E false 1 Sample.last_send_fails
  = (Uncaught (Py.SocketError 32), logs, w') ∧
  length logs = (2 * Z.to_nat 1)%nat ∧ closed w' = closed Sample.last_send_fails.
Proof.
  split; [by vm_compute|].
  apply (uncaught_socket_error_is_last_send Sample.E false 1
           Sample.last_send_fails _ 32).
  by vm_compute.
Defined.

Lemma round_failure_ends_run_witness :
  let w' := (round Sample.E "encrypted" 0 Sample.garbled).2 in
  round Sample.E "encrypted" 0 Sample.garbled = (Raise Py.ValueError, w') ∧
  (∀ errno, Py.ValueError ≠ Py.SocketError errno) ∧
  for_xrange Sample.E "encrypted" [0; 1]%nat Sample.garbled
  = (Uncaught Py.ValueError, [], w') ∧
  (∀ k j, counter w' k j = counter Sample.garbled k j) ∧
  closed w' = closed Sample.garbled.
Proof.
  assert (∀ errno, Py.ValueError ≠ Py.SocketError errno) as Hne by done.
  split; [by vm_compute|]. split; [exact Hne|].
  apply (round_failure_ends_run Sample.E "encrypted" 0 [1%nat] Sample.garbled);
    [by vm_compute|exact Hne].
Defined.

End RunFacts.
